(** * Training harness of the Tacotron2 example and the WaveFlow default config

    A shallow embedding of [tacotron2/train.py] (the [Experiment] class, the
    launcher [main] and the entry point) and of [waveflow/config.py] (the
    default tree [_C] and its factory [get_cfg_defaults]).

    Python objects that are mutated in place ([self] of the experiment, the
    config nodes) are modelled by explicit state: a record threaded through a
    state-and-exception monad for the experiment, a heap of objects addressed
    by location for the config nodes.  Tensors, the network, the loss and the
    optimizer are opaque callables of the program and stay parameters. *)

From Stdlib Require Import ZArith QArith Lia.
From stdpp Require Import base option list strings pretty gmap.

Local Open Scope Z_scope.

(** Appending the same suffix to two strings keeps them apart. *)
Lemma append_length (s t : string) :
  String.length (s +:+ t) = (String.length s + String.length t)%nat.
Proof. induction s as [|a s IH]; simpl; [reflexivity | now rewrite IH]. Qed.

Lemma append_cancel_r (t s1 s2 : string) : s1 +:+ t = s2 +:+ t -> s1 = s2.
Proof.
  revert s2. induction s1 as [|a s1 IH]; intros [|b s2] H; simpl in H.
  - reflexivity.
  - apply (f_equal String.length) in H. rewrite !append_length in H. simpl in H. lia.
  - apply (f_equal String.length) in H. rewrite !append_length in H. simpl in H. lia.
  - injection H as -> H. f_equal. apply IH, H.
Qed.

(** ** A state-and-exception monad

    A Python method that mutates [self] and may raise is a function from the
    state before the call to an outcome and the state after it; the state
    reached when an exception is raised is kept. *)

Inductive exn : Type :=
| KeyError (key : string)
| StopIteration
| AssertionError
| ValueError
| ConfigError
| IOError
| AttributeError
| TypeError
| IndexError
| RecursionError.

Inductive outcome (A : Type) : Type :=
| Ok (a : A)
| Raise (e : exn).
Arguments Ok {A} a.
Arguments Raise {A} e.

Definition M (S A : Type) : Type := S -> outcome A * S.

#[global] Instance M_ret {S} : MRet (M S) := fun A a s => (Ok a, s).

#[global] Instance M_bind {S} : MBind (M S) := fun A B f m s =>
  match m s with
  | (Ok a, s') => f a s'
  | (Raise e, s') => (Raise e, s')
  end.

Definition gets {S A} (f : S -> A) : M S A := fun s => (Ok (f s), s).
Definition modify {S} (f : S -> S) : M S unit := fun s => (Ok tt, f s).
Definition raise {S A} (e : exn) : M S A := fun s => (Raise e, s).

Lemma bind_run {S A B} (m : M S A) (k : A -> M S B) (s : S) :
  (m ≫= k) s
  = match m s with
    | (Ok a, s') => k a s'
    | (Raise e, s') => (Raise e, s')
    end.
Proof. reflexivity. Qed.

(** [for x in xs: body(x)] *)
Fixpoint for_each {S A} (xs : list A) (body : A -> M S unit) : M S unit :=
  match xs with
  | [] => mret tt
  | x :: xs' => body x ;; for_each xs' body
  end.

(** [for x in xs: acc = body(acc, x)], for a loop that updates a local. *)
Fixpoint for_fold {S A B} (xs : list A) (body : B -> A -> M S B) (acc : B) : M S B :=
  match xs with
  | [] => mret acc
  | x :: xs' => acc' ← body acc x; for_fold xs' body acc'
  end.

(** [enumerate(xs)] *)
Definition enumerate {A} (xs : list A) : list (nat * A) :=
  zip (seq 0 (length xs)) xs.

(** [[f(x) for x in xs]] for an [f] with effects. *)
Fixpoint map_each {S A B} (f : A -> M S B) (xs : list A) : M S (list B) :=
  match xs with
  | [] => mret []
  | x :: xs' => y ← f x; ys ← map_each f xs'; mret (y :: ys)
  end.

(** Python dictionaries keep insertion order; [losses.items()] walks an
    association list. *)
Fixpoint dict_get {V} (k : string) (d : list (string * V)) : option V :=
  match d with
  | [] => None
  | (k', v) :: d' => if String.eqb k k' then Some v else dict_get k d'
  end.

(** [d[k].append(v)] on a [defaultdict(list)]: a missing key is created with
    an empty list first, at the end of the dictionary. *)
Fixpoint dd_append {V} (k : string) (v : V) (d : list (string * list V)) : list (string * list V) :=
  match d with
  | [] => [(k, [v])]
  | (k', vs) :: d' =>
      if String.eqb k k' then (k', vs ++ [v]) :: d' else (k', vs) :: dd_append k v d'
  end.

(** *** Frame reasoning in the monad

    [preserves f m]: whatever [m] does, and whether or not it raises, the
    component [f] of the state is the same after it. *)

Definition preserves {S A X} (f : S -> X) (m : M S A) : Prop :=
  forall s, f (m s).2 = f s.

Create HintDb frame discriminated.

Section Frame.
Context {S X : Type} (f : S -> X).

Lemma preserves_ret {A} (a : A) : preserves f (mret a).
Proof. intros s. reflexivity. Qed.

Lemma preserves_raise {A} (e : exn) : preserves f (raise e : M S A).
Proof. intros s. reflexivity. Qed.

Lemma preserves_gets {A} (g : S -> A) : preserves f (gets g).
Proof. intros s. reflexivity. Qed.

Lemma preserves_modify (g : S -> S) :
  (forall s, f (g s) = f s) -> preserves f (modify g).
Proof. intros Hg s. apply Hg. Qed.

Lemma preserves_bind {A B} (m : M S A) (k : A -> M S B) :
  preserves f m -> (forall a, preserves f (k a)) -> preserves f (m ≫= k).
Proof.
  intros Hm Hk s. unfold mbind, M_bind. specialize (Hm s).
  destruct (m s) as [[a|e] s']; simpl in *.
  - rewrite Hk. exact Hm.
  - exact Hm.
Qed.

Lemma preserves_for_each {A} (xs : list A) (body : A -> M S unit) :
  (forall x, preserves f (body x)) -> preserves f (for_each xs body).
Proof.
  intros Hb. induction xs as [|x xs IH]; simpl.
  - apply preserves_ret.
  - apply preserves_bind; auto.
Qed.

Lemma preserves_for_fold {A B} (xs : list A) (body : B -> A -> M S B) (acc : B) :
  (forall b x, preserves f (body b x)) -> preserves f (for_fold xs body acc).
Proof.
  intros Hb. revert acc. induction xs as [|x xs IH]; intros acc; simpl.
  - apply preserves_ret.
  - apply preserves_bind; auto.
Qed.

Lemma preserves_ite {A} (c : bool) (m1 m2 : M S A) :
  preserves f m1 -> preserves f m2 -> preserves f (if c then m1 else m2).
Proof. destruct c; auto. Qed.

(** The same under an invariant [I] of the state, which the computation
    must keep: the frame rule for code guarded by what it reads. *)
Definition preserves_under {A} (I : S -> Prop) (m : M S A) : Prop :=
  forall s, I s -> f (m s).2 = f s /\ I (m s).2.

Lemma preserves_under_ret {A} I (a : A) : preserves_under I (mret a).
Proof. intros s HI. split; [reflexivity | exact HI]. Qed.

Lemma preserves_under_frame {A Y} (g : S -> Y) (P : Y -> Prop) (m : M S A) :
  preserves g m -> preserves f m -> preserves_under (fun s => P (g s)) m.
Proof. intros Hg Hf s HI. rewrite Hg, Hf. split; [reflexivity | exact HI]. Qed.

Lemma preserves_under_bind {A B} I (m : M S A) (k : A -> M S B) :
  preserves_under I m -> (forall a, preserves_under I (k a)) ->
  preserves_under I (m ≫= k).
Proof.
  intros Hm Hk s HI. unfold mbind, M_bind. destruct (Hm s HI) as [Hf HI'].
  destruct (m s) as [[a|e] s']; simpl in *.
  - destruct (Hk a s' HI') as [Hf' HI'']. split; [congruence | exact HI''].
  - split; assumption.
Qed.

Lemma preserves_under_bind_gets {A B} I (g : S -> A) (k : A -> M S B) :
  (forall s, I s -> preserves_under I (k (g s))) ->
  preserves_under I (gets g ≫= k).
Proof. intros Hk s HI. exact (Hk s HI s HI). Qed.

Lemma preserves_under_for_each {A} I (xs : list A) (body : A -> M S unit) :
  (forall x, preserves_under I (body x)) -> preserves_under I (for_each xs body).
Proof.
  intros Hb. induction xs as [|x xs IH]; simpl.
  - apply preserves_under_ret.
  - apply preserves_under_bind; auto.
Qed.

End Frame.

#[export] Hint Resolve preserves_ret preserves_raise preserves_gets
  preserves_bind preserves_for_each preserves_for_fold preserves_ite : frame.

(** *** Dictionaries of lists *)

(** The values a list of items gives for key [k], in order. *)
Fixpoint values_of {V} (k : string) (kvs : list (string * V)) : list V :=
  match kvs with
  | [] => []
  | (k', v) :: rest =>
      if String.eqb k k' then v :: values_of k rest else values_of k rest
  end.

Lemma dict_get_dd_append {V} (k k' : string) (v : V) (d : list (string * list V)) :
  dict_get k (dd_append k' v d)
  = if String.eqb k k' then Some (default [] (dict_get k d) ++ [v]) else dict_get k d.
Proof.
  induction d as [|[k0 vs] d IH]; simpl.
  - destruct (String.eqb k k'); reflexivity.
  - destruct (String.eqb_spec k' k0) as [->|Hne]; simpl.
    + destruct (String.eqb k k0); reflexivity.
    + rewrite IH. destruct (String.eqb_spec k k0) as [->|Hne'].
      * destruct (String.eqb_spec k0 k'); [congruence | reflexivity].
      * reflexivity.
Qed.

Lemma dict_get_collect {V} (kvs : list (string * V)) : forall d k,
  dict_get k (fold_left (fun d '(k, v) => dd_append k v d) kvs d)
  = match values_of k kvs with
    | [] => dict_get k d
    | vs => Some (default [] (dict_get k d) ++ vs)
    end.
Proof.
  induction kvs as [|[k' v] kvs IH]; intros d k; simpl; [reflexivity|].
  rewrite IH, dict_get_dd_append.
  destruct (String.eqb k k'); [|reflexivity].
  destruct (values_of k kvs); simpl; [reflexivity|].
  rewrite <- app_assoc. reflexivity.
Qed.

Lemma dict_get_map_values {V W} (f : V -> W) (k : string) (d : list (string * V)) :
  dict_get k (map (fun '(k, v) => (k, f v)) d) = f <$> dict_get k d.
Proof.
  induction d as [|[k' v] d IH]; simpl; [reflexivity|].
  destruct (String.eqb k k'); [reflexivity | exact IH].
Qed.

Lemma dd_append_keys_in {V} (k : string) (v : V) (d : list (string * list V)) :
  k ∈ d.*1 -> (dd_append k v d).*1 = d.*1.
Proof.
  induction d as [|[k0 vs] d IH]; intros Hin.
  - inversion Hin.
  - cbn [dd_append]. destruct (String.eqb_spec k k0) as [->|Hne]; [reflexivity|].
    rewrite !fmap_cons. f_equal. apply IH.
    rewrite fmap_cons in Hin. apply elem_of_cons in Hin.
    destruct Hin as [Heq|Hin]; [contradiction | exact Hin].
Qed.

Lemma dd_append_keys_new {V} (k : string) (v : V) (d : list (string * list V)) :
  k ∉ d.*1 -> (dd_append k v d).*1 = d.*1 ++ [k].
Proof.
  induction d as [|[k0 vs] d IH]; intros Hnin.
  - reflexivity.
  - cbn [dd_append]. rewrite fmap_cons in Hnin. apply not_elem_of_cons in Hnin.
    destruct Hnin as [Hne Hnin].
    destruct (String.eqb_spec k k0) as [->|_]; [contradiction|].
    rewrite !fmap_cons. rewrite IH by exact Hnin. reflexivity.
Qed.

Lemma dd_append_NoDup {V} (k : string) (v : V) (d : list (string * list V)) :
  NoDup d.*1 -> NoDup (dd_append k v d).*1.
Proof.
  intros Hd. destruct (decide (k ∈ d.*1)) as [Hin|Hnin].
  - rewrite dd_append_keys_in by exact Hin. exact Hd.
  - rewrite dd_append_keys_new by exact Hnin.
    apply NoDup_app. split; [exact Hd|]. split.
    + intros x Hx Hk. apply list_elem_of_singleton in Hk. congruence.
    + apply NoDup_singleton.
Qed.

Lemma collect_NoDup {V} (kvs : list (string * V)) : forall d,
  NoDup d.*1 -> NoDup (fold_left (fun d '(k, v) => dd_append k v d) kvs d).*1.
Proof.
  induction kvs as [|[k v] kvs IH]; intros d Hd; simpl; [exact Hd|].
  apply IH, dd_append_NoDup, Hd.
Qed.

(** ** The experiment: [Experiment.train_batch] and [Experiment.valid] *)

Module Runner.

(** One line handed to [self.logger.info].  The message is kept as its
    fields; the text formatting of the numbers is not modelled. *)
Inductive log_record (scalar : Type) : Type :=
| TrainMsg (rank : nat) (step : Z) (data_loader_time iteration_time : Z)
    (losses : list (string * scalar))
| ValidMsg (step : Z) (losses : list (string * scalar)).
Arguments TrainMsg {scalar}.
Arguments ValidMsg {scalar}.

(** One call that reaches [self.visualizer], the observability channel:
    [self.visualizer.add_scalar(tag, value, step)], or
    [display.add_attention_plots(self.visualizer, tag, weights, step)]. *)
Inductive vis_call (scalar tensor : Type) : Type :=
| AddScalar (tag : string) (value : scalar) (step : Z)
| AddAttentionPlots (tag : string) (attention_weights : tensor) (step : Z).
Arguments AddScalar {scalar tensor}.
Arguments AddAttentionPlots {scalar tensor}.

Definition is_attention_plot {scalar tensor} (c : vis_call scalar tensor) : bool :=
  match c with AddAttentionPlots _ _ _ => true | AddScalar _ _ _ => false end.

Definition vis_tag {scalar tensor} (c : vis_call scalar tensor) : string :=
  match c with AddAttentionPlots t _ _ => t | AddScalar t _ _ => t end.

(** A batch is the 5-tuple the collector builds. *)
Record Batch (tensor : Type) : Type := mkBatch {
  texts : tensor;
  mels : tensor;
  text_lens : tensor;
  output_lens : tensor;
  stop_tokens : tensor;
}.
Arguments mkBatch {tensor}.
Arguments texts {tensor}.
Arguments mels {tensor}.
Arguments text_lens {tensor}.
Arguments output_lens {tensor}.
Arguments stop_tokens {tensor}.

(** The keys of the network's output dictionary that the experiment reads. *)
Record Outputs (tensor : Type) : Type := mkOutputs {
  mel_output : tensor;
  mel_outputs_postnet : tensor;
  stop_logits : tensor;
  alignments : tensor;
}.
Arguments mkOutputs {tensor}.
Arguments mel_output {tensor}.
Arguments mel_outputs_postnet {tensor}.
Arguments stop_logits {tensor}.
Arguments alignments {tensor}.

Section Experiment.

(** Tensors, loss values, parameters, gradients and optimizer state are
    opaque to the harness. *)
Context {tensor scalar params grads opt_state : Type}.

(** [self.model(texts, mels, text_lens, output_lens)]: the network, run at
    its current parameters and in its current mode (training or evaluation).
    A forward pass gives the output dictionary and leaves the parameters as
    its second component says: a layer may write to its own parameters while
    it runs (in training mode a normalisation layer updates the running
    statistics it keeps among them).  The pass is taken to return; what the
    library raises on tensors of the wrong shape is outside this model. *)
Variable network :
  params -> bool -> tensor -> tensor -> tensor -> tensor -> Outputs tensor * params.

(** [self.criterion(mel_outputs, mel_outputs_postnet, stop_logits,
    mel_targets, stop_tokens)]: the named losses, each already a number
    ([float(v)] is the identity on them). *)
Variable criterion : tensor -> tensor -> tensor -> tensor -> tensor -> list (string * scalar).

(** [loss.backward()]: the gradient the scalar under ["loss"] contributes
    on this worker, for the model and mode it was computed with. *)
Variable loss_gradient : params -> bool -> Batch tensor -> grads.

(** [self.optimizer.step()]: Adam with global-norm clipping, from the
    optimizer state, the parameters and the accumulated gradients. *)
Variable adam_step : opt_state -> params -> list grads -> opt_state * params.

(** [np.mean] *)
Variable mean : list scalar -> scalar.

(** The experiment object together with what the process provides: its rank
    ([dist.get_rank()]), the wall clock ([time.time()], the n-th reading of
    the process is [clock n]) and the global gradient-tracking switch.
    [parallel] is [self.parallel]: in a parallel run [setup_model] wraps the
    model in [paddle.DataParallel], whose backward pass leaves on the
    parameters the gradients averaged over the workers.  What the other
    workers contribute is not seen by this process: [peers n g] is what the
    n-th synchronised backward pass of the process leaves when the worker's
    own gradient is [g], and [syncs] counts these passes.
    [forward_log] is a ghost field: for every call of the network, whether
    gradient tracking was on. *)
Record Experiment : Type := mkExperiment {
  rank : nat;
  parallel : bool;
  clock : nat -> Z;
  ticks : nat;
  iteration : Z;
  epoch : Z;
  train_loader : Z -> list (Batch tensor);
  valid_loader : list (Batch tensor);
  iterator : list (Batch tensor);
  model : params;
  training : bool;
  optimizer : opt_state;
  grad : list grads;
  peers : nat -> grads -> grads;
  syncs : nat;
  grad_enabled : bool;
  forward_log : list bool;
  logger : list (log_record scalar);
  visualizer : list (vis_call scalar tensor);
}.

Definition set_ticks (n : nat) (s : Experiment) : Experiment :=
  mkExperiment (rank s) (parallel s) (clock s) n (iteration s) (epoch s)
    (train_loader s) (valid_loader s) (iterator s) (model s) (training s) (optimizer s)
    (grad s) (peers s) (syncs s) (grad_enabled s) (forward_log s) (logger s)
    (visualizer s).

Definition set_epoch (e : Z) (s : Experiment) : Experiment :=
  mkExperiment (rank s) (parallel s) (clock s) (ticks s) (iteration s) e
    (train_loader s) (valid_loader s) (iterator s) (model s) (training s) (optimizer s)
    (grad s) (peers s) (syncs s) (grad_enabled s) (forward_log s) (logger s)
    (visualizer s).

Definition set_iterator (it : list (Batch tensor)) (s : Experiment) : Experiment :=
  mkExperiment (rank s) (parallel s) (clock s) (ticks s) (iteration s) (epoch s)
    (train_loader s) (valid_loader s) it (model s) (training s) (optimizer s) (grad s)
    (peers s) (syncs s) (grad_enabled s) (forward_log s) (logger s) (visualizer s).

Definition set_model (p : params) (s : Experiment) : Experiment :=
  mkExperiment (rank s) (parallel s) (clock s) (ticks s) (iteration s) (epoch s)
    (train_loader s) (valid_loader s) (iterator s) p (training s) (optimizer s) (grad s)
    (peers s) (syncs s) (grad_enabled s) (forward_log s) (logger s) (visualizer s).

Definition set_training (b : bool) (s : Experiment) : Experiment :=
  mkExperiment (rank s) (parallel s) (clock s) (ticks s) (iteration s) (epoch s)
    (train_loader s) (valid_loader s) (iterator s) (model s) b (optimizer s) (grad s)
    (peers s) (syncs s) (grad_enabled s) (forward_log s) (logger s) (visualizer s).

Definition set_optimizer (o : opt_state) (s : Experiment) : Experiment :=
  mkExperiment (rank s) (parallel s) (clock s) (ticks s) (iteration s) (epoch s)
    (train_loader s) (valid_loader s) (iterator s) (model s) (training s) o (grad s)
    (peers s) (syncs s) (grad_enabled s) (forward_log s) (logger s) (visualizer s).

Definition set_grad (g : list grads) (s : Experiment) : Experiment :=
  mkExperiment (rank s) (parallel s) (clock s) (ticks s) (iteration s) (epoch s)
    (train_loader s) (valid_loader s) (iterator s) (model s) (training s) (optimizer s)
    g (peers s) (syncs s) (grad_enabled s) (forward_log s) (logger s) (visualizer s).

Definition set_syncs (n : nat) (s : Experiment) : Experiment :=
  mkExperiment (rank s) (parallel s) (clock s) (ticks s) (iteration s) (epoch s)
    (train_loader s) (valid_loader s) (iterator s) (model s) (training s) (optimizer s)
    (grad s) (peers s) n (grad_enabled s) (forward_log s) (logger s) (visualizer s).

Definition set_grad_enabled (b : bool) (s : Experiment) : Experiment :=
  mkExperiment (rank s) (parallel s) (clock s) (ticks s) (iteration s) (epoch s)
    (train_loader s) (valid_loader s) (iterator s) (model s) (training s) (optimizer s)
    (grad s) (peers s) (syncs s) b (forward_log s) (logger s) (visualizer s).

Definition set_forward_log (l : list bool) (s : Experiment) : Experiment :=
  mkExperiment (rank s) (parallel s) (clock s) (ticks s) (iteration s) (epoch s)
    (train_loader s) (valid_loader s) (iterator s) (model s) (training s) (optimizer s)
    (grad s) (peers s) (syncs s) (grad_enabled s) l (logger s) (visualizer s).

Definition set_logger (l : list (log_record scalar)) (s : Experiment) : Experiment :=
  mkExperiment (rank s) (parallel s) (clock s) (ticks s) (iteration s) (epoch s)
    (train_loader s) (valid_loader s) (iterator s) (model s) (training s) (optimizer s)
    (grad s) (peers s) (syncs s) (grad_enabled s) (forward_log s) l (visualizer s).

Definition set_visualizer (l : list (vis_call scalar tensor)) (s : Experiment) : Experiment :=
  mkExperiment (rank s) (parallel s) (clock s) (ticks s) (iteration s) (epoch s)
    (train_loader s) (valid_loader s) (iterator s) (model s) (training s) (optimizer s)
    (grad s) (peers s) (syncs s) (grad_enabled s) (forward_log s) (logger s) l.

(** The driver's own bookkeeping ([self.iteration += 1], resuming from a
    checkpoint) is the only writer of the counter; neither method below
    assigns it. *)
Definition set_iteration (i : Z) (s : Experiment) : Experiment :=
  mkExperiment (rank s) (parallel s) (clock s) (ticks s) i (epoch s) (train_loader s)
    (valid_loader s) (iterator s) (model s) (training s) (optimizer s) (grad s)
    (peers s) (syncs s) (grad_enabled s) (forward_log s) (logger s) (visualizer s).

Abbreviation Exp := (M Experiment).

(** *** What the methods call *)

(** [time.time()] *)
Definition time_time : Exp Z := fun s =>
  (Ok (clock s (ticks s)), set_ticks (S (ticks s)) s).

(** [dist.get_rank()] *)
Definition get_rank : Exp nat := gets rank.

(** Modelled from the spec: [ExperimentBase.read_batch] is not under src/.
    The runner "pulls a batch": the next batch of the current pass over the
    training source; when the pass is used up a new epoch starts a new pass,
    and a pass with no batch at all leaves nothing to pull. *)
Definition read_batch : Exp (Batch tensor) := fun s =>
  match iterator s with
  | b :: rest => (Ok b, set_iterator rest s)
  | [] =>
      let s1 := set_epoch (epoch s + 1) s in
      match train_loader s1 (epoch s1) with
      | b :: rest => (Ok b, set_iterator rest s1)
      | [] => (Raise StopIteration, set_iterator [] s1)
      end
  end.

(** [self.optimizer.clear_grad()] *)
Definition optimizer_clear_grad : Exp unit := modify (set_grad []).

(** [self.model.train()] *)
Definition model_train : Exp unit := modify (set_training true).

(** [self.model(texts, mels, text_lens, output_lens)]: the outputs of the
    forward pass; the model is left as the pass leaves it. *)
Definition model_call (texts mels text_lens output_lens : tensor) : Exp (Outputs tensor) :=
  fun s =>
    let run := network (model s) (training s) texts mels text_lens output_lens in
    (Ok run.1, set_model run.2 (set_forward_log (forward_log s ++ [grad_enabled s]) s)).

(** [loss.backward()] adds to the gradients held for the parameters, for
    the model as it stands after the forward pass: the worker's own gradient
    in a one-process run, the gradient averaged over the workers when the
    model is wrapped in [paddle.DataParallel]. *)
Definition loss_backward (batch : Batch tensor) : Exp unit := fun s =>
  let g := loss_gradient (model s) (training s) batch in
  if parallel s
  then (Ok tt, set_syncs (S (syncs s)) (set_grad (grad s ++ [peers s (syncs s) g]) s))
  else (Ok tt, set_grad (grad s ++ [g]) s).

(** [self.optimizer.step()] *)
Definition optimizer_step : Exp unit := fun s =>
  let '(o, p) := adam_step (optimizer s) (model s) (grad s) in
  (Ok tt, set_model p (set_optimizer o s)).

(** [self.logger.info(msg)] *)
Definition logger_info (msg : log_record scalar) : Exp unit := fun s =>
  (Ok tt, set_logger (logger s ++ [msg]) s).

(** [self.visualizer.add_scalar(tag, value, step)] *)
Definition visualizer_add_scalar (tag : string) (v : scalar) (step : Z) : Exp unit := fun s =>
  (Ok tt, set_visualizer (visualizer s ++ [AddScalar tag v step]) s).

(** [display.add_attention_plots(self.visualizer, tag, attention_weights,
    step)]: the one call that hands the alignment tensor of a batch to the
    channel under [tag]. *)
Definition display_add_attention_plots (tag : string) (w : tensor) (step : Z) : Exp unit := fun s =>
  (Ok tt, set_visualizer (visualizer s ++ [AddAttentionPlots tag w step]) s).

(** [losses["loss"]] *)
Definition getitem (k : string) (d : list (string * scalar)) : Exp scalar :=
  match dict_get k d with
  | Some v => mret v
  | None => raise (KeyError k)
  end.

(** [@paddle.no_grad()]: gradient tracking is switched off on entry and the
    previous setting is put back on every exit, also when the body raises. *)
Definition no_grad {A} (body : Exp A) : Exp A := fun s =>
  let '(r, s') := body (set_grad_enabled false s) in
  (r, set_grad_enabled (grad_enabled s) s').

(** [@mp_tools.rank_zero_only]: the body runs on rank 0; any other rank
    returns at once. *)
Definition rank_zero_only (body : Exp unit) : Exp unit :=
  r ← get_rank;
  if (r =? 0)%nat then body else mret tt.

(** *** The methods of [Experiment] *)

Definition compute_losses (inputs : Batch tensor) (outputs : Outputs tensor) : list (string * scalar) :=
  let mel_targets := mels inputs in
  let stop_tokens := stop_tokens inputs in
  let mel_outputs := mel_output outputs in
  let mel_outputs_postnet := mel_outputs_postnet outputs in
  let stop_logits := stop_logits outputs in
  criterion mel_outputs mel_outputs_postnet stop_logits mel_targets stop_tokens.

Definition train_batch : Exp unit :=
  start ← time_time;
  batch ← read_batch;
  now1 ← time_time;
  let data_loader_time := now1 - start in
  optimizer_clear_grad;;
  model_train;;
  outputs ← model_call (texts batch) (mels batch) (text_lens batch) (output_lens batch);
  let losses := compute_losses batch outputs in
  _ ← getitem "loss" losses;
  loss_backward batch;;
  optimizer_step;;
  now2 ← time_time;
  let iteration_time := now2 - start in
  let losses_np := losses in
  r ← get_rank;
  step ← gets iteration;
  logger_info (TrainMsg r step data_loader_time iteration_time losses_np);;
  r0 ← get_rank;
  if (r0 =? 0)%nat then
    for_each losses_np (fun '(k, v) =>
      step ← gets iteration;
      visualizer_add_scalar ("train_loss/" +:+ k) v step)
  else mret tt.

(** The body of the loop over [enumerate(self.valid_loader)]. *)
Definition valid_step (valid_losses : list (string * list scalar)) (ib : nat * Batch tensor)
  : Exp (list (string * list scalar)) :=
  let '(i, batch) := ib in
  outputs ← model_call (texts batch) (mels batch) (text_lens batch) (output_lens batch);
  let losses := compute_losses batch outputs in
  let valid_losses := fold_left (fun d '(k, v) => dd_append k v d) losses valid_losses in
  let attention_weights := alignments outputs in
  step ← gets iteration;
  display_add_attention_plots ("valid_sentence_" +:+ pretty i +:+ "_alignments")
    attention_weights step;;
  mret valid_losses.

Definition valid_body : Exp unit :=
  loader ← gets valid_loader;
  valid_losses ← for_fold (enumerate loader) valid_step [];
  let valid_losses := map (fun '(k, v) => (k, mean v)) valid_losses in
  step ← gets iteration;
  logger_info (ValidMsg step valid_losses);;
  for_each valid_losses (fun '(k, v) =>
    step ← gets iteration;
    visualizer_add_scalar ("valid/" +:+ k) v step).

Definition valid : Exp unit := rank_zero_only (no_grad valid_body).

(** *** Which call touches which field *)

Ltac frame_call :=
  let s := fresh "s" in
  intros s;
  unfold time_time, read_batch, optimizer_clear_grad, model_train, model_call,
    loss_backward, optimizer_step, logger_info, visualizer_add_scalar,
    display_add_attention_plots, getitem, get_rank, modify, gets, raise;
  repeat case_match; reflexivity.

Ltac frame :=
  repeat first
    [ apply preserves_ret
    | apply preserves_gets
    | apply preserves_bind; [ | intros ? ]
    | apply preserves_for_each; intros ?
    | apply preserves_for_fold; intros ? ?
    | apply preserves_ite
    | match goal with
      | |- preserves _ (match ?x with _ => _ end) => destruct x
      end
    | solve [ frame_call ] ].

Lemma train_batch_rank : preserves rank train_batch.
Proof. unfold train_batch. frame. Qed.

Lemma train_batch_keeps_iteration : preserves iteration train_batch.
Proof. unfold train_batch. frame. Qed.

Lemma valid_step_keeps (X : Type) (f : Experiment -> X) acc ib :
  (forall p s, f (set_model p s) = f s) ->
  (forall l s, f (set_forward_log l s) = f s) ->
  (forall l s, f (set_visualizer l s) = f s) ->
  preserves f (valid_step acc ib).
Proof.
  intros Hm Hf Hv. unfold valid_step. destruct ib as [i batch]. frame.
  - intros ?. unfold model_call. simpl. rewrite Hm. apply Hf.
  - intros ?. apply Hv.
Qed.

Lemma no_grad_keeps (X : Type) (f : Experiment -> X) {A} (body : Exp A) :
  (forall b s, f (set_grad_enabled b s) = f s) ->
  preserves f body -> preserves f (no_grad body).
Proof.
  intros Hg Hb s. unfold no_grad. specialize (Hb (set_grad_enabled false s)).
  destruct (body (set_grad_enabled false s)) as [r s']; simpl in *.
  rewrite Hg, Hb. apply Hg.
Qed.

Lemma rank_zero_only_keeps (X : Type) (f : Experiment -> X) (body : Exp unit) :
  preserves f body -> preserves f (rank_zero_only body).
Proof. intros Hb. unfold rank_zero_only. frame. exact Hb. Qed.

Lemma rank_zero_only_skips (body : Exp unit) s :
  rank s <> 0%nat -> rank_zero_only body s = (Ok tt, s).
Proof.
  intros Hr. unfold rank_zero_only, get_rank, gets, mbind, M_bind.
  destruct (Nat.eqb_spec (rank s) 0); [contradiction | reflexivity].
Qed.

Lemma rank_zero_only_runs (body : Exp unit) s :
  rank s = 0%nat -> rank_zero_only body s = body s.
Proof.
  intros Hr. unfold rank_zero_only, get_rank, gets, mbind, M_bind.
  rewrite Hr. reflexivity.
Qed.

Lemma valid_body_keeps (X : Type) (f : Experiment -> X) :
  (forall p s, f (set_model p s) = f s) ->
  (forall l s, f (set_forward_log l s) = f s) ->
  (forall l s, f (set_visualizer l s) = f s) ->
  (forall l s, f (set_logger l s) = f s) ->
  preserves f valid_body.
Proof.
  intros Hm Hf Hv Hl. unfold valid_body. frame.
  - apply valid_step_keeps; assumption.
  - intros ?. apply Hl.
  - intros ?. apply Hv.
Qed.

Lemma valid_keeps (X : Type) (f : Experiment -> X) :
  (forall p s, f (set_model p s) = f s) ->
  (forall l s, f (set_forward_log l s) = f s) ->
  (forall l s, f (set_visualizer l s) = f s) ->
  (forall l s, f (set_logger l s) = f s) ->
  (forall b s, f (set_grad_enabled b s) = f s) ->
  preserves f valid.
Proof.
  intros Hm Hf Hv Hl Hg. unfold valid.
  apply rank_zero_only_keeps, no_grad_keeps; [exact Hg|].
  apply valid_body_keeps; assumption.
Qed.

Lemma train_batch_quiet :
  preserves_under visualizer (fun s => rank s <> 0%nat) train_batch.
Proof.
  unfold train_batch, get_rank.
  repeat first
    [ apply preserves_under_bind_gets; intros ? ?
    | apply preserves_under_bind;
      [ solve [ apply (preserves_under_frame visualizer rank (fun r => r <> 0%nat));
                frame_call ]
      | intros ? ] ].
  match goal with
  | |- context [ (rank ?x =? 0)%nat ] => destruct (Nat.eqb_spec (rank x) 0)
  end; [contradiction | apply preserves_under_ret].
Qed.

(** *** What the loops emit *)

(** Evaluates the field updates and the field reads of a state given by its
    fields, innermost first. *)
Ltac run_setters :=
  cbv beta iota delta
    [set_ticks set_epoch set_iterator set_model set_training set_optimizer set_grad
     set_syncs set_grad_enabled set_forward_log set_logger set_visualizer set_iteration
     rank parallel clock ticks iteration epoch train_loader valid_loader iterator
     model training optimizer grad peers syncs grad_enabled forward_log logger
     visualizer].

(** One forward pass on a batch: the outputs, and the parameters as the
    pass leaves them. *)
Definition forward (p : params) (training : bool) (b : Batch tensor)
  : Outputs tensor * params :=
  network p training (texts b) (mels b) (text_lens b) (output_lens b).

(** The parameters as the forward passes on a run of batches leave them, one
    after the other in the mode [training]. *)
Definition after_forwards (training : bool) (batches : list (Batch tensor)) (p : params)
  : params :=
  fold_left (fun p b => (forward p training b).2) batches p.

(** The parameters the [i]-th forward pass of a validation pass that starts
    in [s] runs at: those the passes on the batches before it have left. *)
Definition params_before (s : Experiment) (i : nat) : params :=
  after_forwards (training s) (take i (valid_loader s)) (model s).

(** The outputs of the network on the [i]-th validation batch. *)
Definition batch_outputs (s : Experiment) (ib : nat * Batch tensor) : Outputs tensor :=
  (forward (params_before s ib.1) (training s) ib.2).1.

(** The channel call the validation loop makes for the [i]-th batch. *)
Definition alignment_plot (s : Experiment) (ib : nat * Batch tensor) : vis_call scalar tensor :=
  AddAttentionPlots ("valid_sentence_" +:+ pretty ib.1 +:+ "_alignments")
    (alignments (batch_outputs s ib)) (iteration s).

Definition scalar_call (prefix : string) (step : Z) (kv : string * scalar) : vis_call scalar tensor :=
  AddScalar (prefix +:+ kv.1) kv.2 step.

Lemma for_each_add_scalar prefix (losses : list (string * scalar)) s :
  for_each losses (fun '(k, v) =>
      step ← gets iteration; visualizer_add_scalar (prefix +:+ k) v step) s
  = (Ok tt, set_visualizer
              (visualizer s ++ map (scalar_call prefix (iteration s)) losses) s).
Proof.
  revert s. induction losses as [|[k v] losses IH]; intros s.
  - destruct s; simpl. unfold set_visualizer; simpl. rewrite app_nil_r. reflexivity.
  - simpl. rewrite bind_run. simpl. rewrite IH.
    unfold set_visualizer; simpl. rewrite <- app_assoc. reflexivity.
Qed.

(** [valid_losses] after the loop: every loss of every batch appended, in
    the order of the batches, to the list kept under its name. *)
Definition collect_losses (s : Experiment) (ibs : list (nat * Batch tensor))
    (acc : list (string * list scalar)) : list (string * list scalar) :=
  fold_left
    (fun acc ib =>
       fold_left (fun d '(k, v) => dd_append k v d)
         (compute_losses ib.2 (batch_outputs s ib)) acc)
    ibs acc.

(** The averaged dictionary the pass logs and forwards. *)
Definition valid_means (s : Experiment) : list (string * scalar) :=
  map (fun '(k, v) => (k, mean v)) (collect_losses s (enumerate (valid_loader s)) []).

Lemma params_before_done (s : Experiment) done rest :
  valid_loader s = done ++ rest ->
  params_before s (length done) = after_forwards (training s) done (model s).
Proof.
  intros Hl. unfold params_before. rewrite Hl, take_app_length. reflexivity.
Qed.

Lemma params_before_all (s : Experiment) :
  params_before s (length (valid_loader s))
  = after_forwards (training s) (valid_loader s) (model s).
Proof. unfold params_before. rewrite firstn_all. reflexivity. Qed.

(** The loop over the batches from the [length done]-th on, started in a
    state [s] that the loop over the batches [done] has reached from
    [s0]. *)
Lemma valid_loop_from (s0 : Experiment) rest : forall done acc s,
  valid_loader s0 = done ++ rest ->
  model s = params_before s0 (length done) ->
  training s = training s0 ->
  iteration s = iteration s0 ->
  for_fold (zip (seq (length done) (length rest)) rest) valid_step acc s
  = (Ok (collect_losses s0 (zip (seq (length done) (length rest)) rest) acc),
     set_visualizer
       (visualizer s ++ map (alignment_plot s0) (zip (seq (length done) (length rest)) rest))
       (set_forward_log (forward_log s ++ repeat (grad_enabled s) (length rest))
          (set_model (params_before s0 (length done + length rest)) s))).
Proof.
  induction rest as [|b rest IH]; intros done acc s Hl Hm Ht Hi.
  - simpl. rewrite Nat.add_0_r, <- Hm. destruct s; simpl.
    unfold set_visualizer, set_forward_log, set_model; simpl.
    rewrite !app_nil_r. reflexivity.
  - assert (Hl' : valid_loader s0 = (done ++ [b]) ++ rest)
      by (rewrite <- app_assoc; exact Hl).
    assert (Hlen : length (done ++ [b]) = S (length done))
      by (rewrite length_app; simpl; lia).
    pose proof (IH (done ++ [b])) as Hrest. clear IH.
    destruct s as [rk par ck tk itn ep tl vl it md tr op gr pe sy ge fl lg vs].
    cbn [model training iteration] in Hm, Ht, Hi. subst md tr itn.
    cbn [length seq zip zip_with for_fold]. rewrite bind_run.
    unfold valid_step at 1. rewrite bind_run. unfold model_call at 1. cbn beta iota zeta.
    rewrite bind_run. cbn [gets]. rewrite bind_run.
    unfold display_add_attention_plots at 1. cbn beta iota.
    unfold mret at 1, M_ret at 1. cbn beta iota.
    rewrite <- Hlen.
    rewrite Hrest; [|exact Hl'|..].
    + rewrite Hlen. run_setters.
      rewrite <- !app_assoc, Nat.add_succ_r. reflexivity.
    + run_setters.
      rewrite (params_before_done s0 _ _ Hl'), (params_before_done s0 _ _ Hl).
      unfold after_forwards, forward. rewrite fold_left_app. reflexivity.
    + run_setters. reflexivity.
    + run_setters. reflexivity.
Qed.

Lemma length_enumerate {A} (xs : list A) : length (enumerate xs) = length xs.
Proof. unfold enumerate. rewrite length_zip, length_seq. lia. Qed.

Lemma fst_enumerate {A} (xs : list A) : (enumerate xs).*1 = seq 0 (length xs).
Proof. unfold enumerate. apply fst_zip. rewrite length_seq. lia. Qed.

(** The state a whole validation pass leaves on rank 0. *)
Definition after_valid (s : Experiment) (means : list (string * scalar)) : Experiment :=
  set_grad_enabled (grad_enabled s)
    (set_visualizer
       (visualizer s ++ map (alignment_plot s) (enumerate (valid_loader s))
          ++ map (scalar_call "valid/" (iteration s)) means)
       (set_logger (logger s ++ [ValidMsg (iteration s) means])
          (set_forward_log (forward_log s ++ repeat false (length (valid_loader s)))
             (set_model (params_before s (length (valid_loader s)))
                (set_grad_enabled false s))))).

Lemma valid_run s :
  rank s = 0%nat -> valid s = (Ok tt, after_valid s (valid_means s)).
Proof.
  intros Hr. unfold valid. rewrite rank_zero_only_runs by exact Hr.
  pose proof (valid_loop_from s (valid_loader s) [] [] (set_grad_enabled false s)
                eq_refl eq_refl eq_refl eq_refl) as Hloop.
  unfold no_grad, valid_body, after_valid, valid_means, enumerate.
  rewrite bind_run. cbn [gets].
  change (valid_loader (set_grad_enabled false s)) with (valid_loader s).
  rewrite bind_run. cbn [length] in Hloop. rewrite Hloop.
  rewrite bind_run. cbn [gets]. rewrite bind_run.
  unfold logger_info at 1. cbn beta iota. rewrite for_each_add_scalar.
  destruct s. run_setters. rewrite <- app_assoc. reflexivity.
Qed.

Lemma valid_on_rank_zero s :
  rank s = 0%nat -> exists means, valid s = (Ok tt, after_valid s means).
Proof. intros Hr. exists (valid_means s). exact (valid_run s Hr). Qed.

Lemma valid_elsewhere s : rank s <> 0%nat -> valid s = (Ok tt, s).
Proof. intros Hr. unfold valid. apply rank_zero_only_skips, Hr. Qed.

(** *** The line a training step logs *)

Definition logged_timings (msg : log_record scalar) : option (Z * Z) :=
  match msg with
  | TrainMsg _ _ data_loader_time iteration_time _ => Some (data_loader_time, iteration_time)
  | ValidMsg _ _ => None
  end.

(** The three clock readings of a training step that starts in [s]: on
    entry, once the batch is in hand, and after the optimizer update. *)
Definition t_start (s : Experiment) : Z := clock s (ticks s).
Definition t_batch (s : Experiment) : Z := clock s (S (ticks s)).
Definition t_done (s : Experiment) : Z := clock s (S (S (ticks s))).

(** Runs [train_batch] on a symbolic state, one goal per path through it. *)
Ltac run_train_batch :=
  unfold train_batch;
  rewrite bind_run; simpl; rewrite bind_run;
  unfold read_batch; simpl;
  destruct (iterator _) as [|? ?] eqn:?; simpl;
  [ destruct (train_loader _ _) as [|? ?] eqn:?; simpl; [reflexivity|] | ];
  repeat (rewrite bind_run; simpl);
  unfold getitem;
  (destruct (dict_get "loss" _) as [?|] eqn:?; simpl; [|reflexivity]);
  rewrite bind_run; unfold loss_backward; simpl;
  destruct (parallel _) eqn:?; simpl;
  repeat (rewrite bind_run; simpl);
  unfold optimizer_step; simpl;
  destruct (adam_step _ _ _) as [? ?]; simpl;
  repeat (rewrite bind_run; simpl);
  (destruct (rank _ =? 0)%nat eqn:?; simpl; [rewrite for_each_add_scalar; simpl|]).

Lemma train_batch_log s :
  match train_batch s with
  | (Ok _, s') =>
      exists losses,
        logger s' = logger s ++
          [TrainMsg (rank s) (iteration s) (t_batch s - t_start s)
             (t_done s - t_start s) losses]
  | (Raise _, s') => logger s' = logger s
  end.
Proof.
  unfold t_start, t_batch, t_done. run_train_batch; eauto.
Qed.

(** On rank 0 a completed step hands every loss to the channel, tagged
    [train_loss/<name>] and keyed by the counter. *)
Lemma train_batch_scalars s :
  rank s = 0%nat ->
  match train_batch s with
  | (Ok _, s') =>
      exists losses,
        dict_get "loss" losses <> None /\
        visualizer s' = visualizer s ++ map (scalar_call "train_loss/" (iteration s)) losses
  | (Raise _, s') => visualizer s' = visualizer s
  end.
Proof.
  intros Hr. run_train_batch.
  all: try (rewrite Hr in *; discriminate).
  all: eexists; split; [|reflexivity]; congruence.
Qed.

(** *** A worker

    The driver ([ExperimentBase.run], not under src/) interleaves the two
    methods with its own bookkeeping of the counter; whatever it does, a
    worker's use of the experiment is a list of such calls, stopped by the
    first exception. *)
Inductive call : Type :=
| CallTrainBatch
| CallValid
| Advance (i : Z).

Definition worker (calls : list call) : Exp unit :=
  for_each calls (fun c =>
    match c with
    | CallTrainBatch => train_batch
    | CallValid => valid
    | Advance i => modify (set_iteration i)
    end).

Lemma worker_quiet calls :
  preserves_under visualizer (fun s => rank s <> 0%nat) (worker calls).
Proof.
  unfold worker. apply preserves_under_for_each. intros [| |i].
  - apply train_batch_quiet.
  - intros s Hr. rewrite valid_elsewhere by exact Hr. split; [reflexivity | exact Hr].
  - intros s Hr. split; [reflexivity | exact Hr].
Qed.

(** C1. Only the rank-0 worker calls the observability channel: on a worker
    whose rank is not 0, a training step leaves [self.visualizer] without a
    new call (the [train_loss/<name>] scalars are forwarded only behind the
    rank-0 guard), the validation pass does not run at all (the experiment
    is left exactly as it was, so neither [valid/<name>] scalars nor
    alignment artifacts are emitted), and so no interleaving of the two
    methods by the driver adds a call. *)
Theorem only_rank_zero_observes (s : Experiment) (calls : list call) :
  rank s <> 0%nat ->
  visualizer (train_batch s).2 = visualizer s /\
  valid s = (Ok tt, s) /\
  visualizer (worker calls s).2 = visualizer s.
Proof.
  intros Hr. split; [|split].
  - exact (proj1 (train_batch_quiet s Hr)).
  - exact (valid_elsewhere s Hr).
  - exact (proj1 (worker_quiet calls s Hr)).
Qed.

(** C2 (amended). Neither method writes the counter: [self.iteration] is the
    same after a call of [train_batch] as before it, on every rank and
    whether or not the call raises, and the same after [valid].  The step
    that advances it by one is the caller's. *)
Theorem methods_keep_iteration (s : Experiment) :
  iteration (train_batch s).2 = iteration s /\
  iteration (valid s).2 = iteration s.
Proof.
  split.
  - apply train_batch_keeps_iteration.
  - apply valid_keeps; reflexivity.
Qed.

Lemma after_forwards_fixed (training : bool) (batches : list (Batch tensor)) (p : params) :
  (forall q b, In b batches -> (forward q training b).2 = q) ->
  after_forwards training batches p = p.
Proof.
  unfold after_forwards. revert p.
  induction batches as [|b batches IH]; intros p Hfix; simpl; [reflexivity|].
  rewrite (Hfix p b) by (left; reflexivity).
  apply IH. intros q b' Hb'. apply Hfix. right. exact Hb'.
Qed.

(** C3 (amended). The validation pass runs its forward passes with gradient
    tracking off (one call of the network per validation batch on rank 0)
    and puts the tracking switch back; it makes no backward pass and no
    optimizer update: the optimizer state, the held gradients and the mode
    are what they were.  It does not put the model in evaluation mode, so
    the parameters after the pass are what the forward passes on the
    validation batches, run one after the other in the mode the model was
    in, have left: they equal the parameters from before the call whenever
    the forward pass writes none of them in that mode. *)
Theorem valid_leaves_model_to_forward (s : Experiment) :
  training (valid s).2 = training s /\
  optimizer (valid s).2 = optimizer s /\
  grad (valid s).2 = grad s /\
  syncs (valid s).2 = syncs s /\
  grad_enabled (valid s).2 = grad_enabled s /\
  (exists calls,
     forward_log (valid s).2 = forward_log s ++ calls /\
     Forall (fun tracking => tracking = false) calls /\
     (rank s = 0%nat -> length calls = length (valid_loader s))) /\
  model (valid s).2
  = (if (rank s =? 0)%nat
     then after_forwards (training s) (valid_loader s) (model s)
     else model s) /\
  ((forall p b, In b (valid_loader s) -> (forward p (training s) b).2 = p) ->
   model (valid s).2 = model s).
Proof.
  destruct (Nat.eq_dec (rank s) 0%nat) as [Hr|Hr].
  - rewrite (valid_run s Hr), Hr. unfold after_valid.
    rewrite <- params_before_all.
    destruct s as [rk par ck tk itn ep tl vl it md tr op gr pe sy ge fl lg vs].
    run_setters. repeat split.
    + exists (repeat false (length vl)). repeat split.
      * apply Forall_forall. intros b Hb.
        apply list_elem_of_In, repeat_spec in Hb. exact Hb.
      * intros _. apply repeat_length.
    + intros Hfix. rewrite params_before_all. apply after_forwards_fixed. exact Hfix.
  - rewrite valid_elsewhere by exact Hr.
    destruct (Nat.eqb_spec (rank s) 0); [contradiction|].
    cbn [snd]. repeat split.
    exists []. rewrite app_nil_r. repeat split; [constructor | contradiction].
Qed.

(** C6 (amended). A completed training step logs two timings taken from the
    same starting point, the clock reading on entry: the first runs to the
    moment the batch is in hand, the second to the moment the optimizer
    update is done.  The second timing therefore contains the first: it is
    the time spent obtaining the batch plus the time of the computation
    phases. *)
Theorem iteration_time_includes_data_loading (s s' : Experiment) :
  train_batch s = (Ok tt, s') ->
  exists msg,
    logger s' = logger s ++ [msg] /\
    logged_timings msg
    = Some (t_batch s - t_start s, (t_batch s - t_start s) + (t_done s - t_batch s)).
Proof.
  intros Hrun. pose proof (train_batch_log s) as Hlog. rewrite Hrun in Hlog.
  destruct Hlog as [losses Hlog]. eexists. split; [exact Hlog|].
  simpl. do 2 f_equal. lia.
Qed.

Lemma alignment_tags_distinct (s : Experiment) (loader : list (Batch tensor)) :
  NoDup (map vis_tag (map (alignment_plot s) (enumerate loader))).
Proof.
  rewrite map_map.
  replace (map (fun ib => vis_tag (alignment_plot s ib)) (enumerate loader))
    with (map (fun i : nat => "valid_sentence_" +:+ pretty i +:+ "_alignments")
              (seq 0 (length loader))).
  - apply NoDup_fmap_2; [|apply NoDup_seq].
    intros i j H. apply String.app_inj, append_cancel_r in H.
    exact (pretty_nat_inj _ _ H).
  - rewrite <- fst_enumerate. generalize (enumerate loader). intros l.
    induction l as [|[i b] l IH]; simpl; [reflexivity | f_equal; exact IH].
Qed.

(** C7 (amended). On rank 0 a validation pass makes one attention-plot call
    per validation batch, not per example: the calls are, in order, the
    alignment tensor of the i-th batch under the tag
    [valid_sentence_<i>_alignments], [i] being the index of the batch in the
    loader; the tags of different batches differ, and the only other calls
    of the pass are the [valid/<name>] scalars that follow. *)
Theorem one_alignment_plot_per_batch (s : Experiment) :
  rank s = 0%nat ->
  exists scalars,
    (valid s).1 = Ok tt /\
    visualizer (valid s).2
    = visualizer s ++ map (alignment_plot s) (enumerate (valid_loader s)) ++ scalars /\
    length (map (alignment_plot s) (enumerate (valid_loader s))) = length (valid_loader s) /\
    NoDup (map vis_tag (map (alignment_plot s) (enumerate (valid_loader s)))) /\
    Forall (fun c => is_attention_plot c = false) scalars.
Proof.
  intros Hr. destruct (valid_on_rank_zero s Hr) as [means ->]. simpl.
  exists (map (scalar_call "valid/" (iteration s)) means). repeat split.
  - rewrite length_map. apply length_enumerate.
  - apply alignment_tags_distinct.
  - apply Forall_forall. intros c Hc. apply list_elem_of_In, in_map_iff in Hc.
    destruct Hc as [kv [<- _]]. reflexivity.
Qed.

(** *** More on a training step *)

(** The batch a step that starts in [s] trains on: the next one of the pass
    under way, else the first one of the next epoch. *)
Definition next_batch (s : Experiment) : option (Batch tensor) :=
  match iterator s with
  | b :: _ => Some b
  | [] => head (train_loader s (epoch s + 1))
  end.

(** Runs [train_batch] on a state given by its fields. *)
Ltac step_train_batch :=
  unfold train_batch, next_batch in *; simpl in *;
  rewrite bind_run; simpl; rewrite bind_run; unfold read_batch; simpl;
  match goal with
  | |- context [ match ?it with [] => _ | _ :: _ => _ end ] =>
      destruct it as [|? ?] eqn:?; simpl in *
  end;
  [ match goal with
    | |- context [ match ?l with [] => _ | _ :: _ => _ end ] =>
        destruct l as [|? ?] eqn:?; simpl in *
    end | ];
  try discriminate;
  repeat (rewrite bind_run; simpl);
  unfold getitem.

Ltac finish_train_batch :=
  rewrite bind_run; unfold loss_backward; simpl;
  match goal with
  | |- context [ if ?par then _ else _ ] => destruct par eqn:?; simpl
  end;
  repeat (rewrite bind_run; simpl);
  unfold optimizer_step; simpl;
  destruct (adam_step _ _ _) as [? ?] eqn:?; simpl;
  repeat (rewrite bind_run; simpl);
  (destruct (_ =? 0)%nat eqn:?; simpl; [rewrite for_each_add_scalar; simpl|]).

(** The losses of the step: the network runs on the batch at the current
    parameters and in training mode, whatever the mode was before. *)
Definition step_losses (s : Experiment) (b : Batch tensor) : list (string * scalar) :=
  compute_losses b (forward (model s) true b).1.

(** The gradient the backward pass of the step leaves: computed on the model
    as the forward pass left it, and in a parallel run averaged with what
    the other workers computed. *)
Definition step_gradient (s : Experiment) (b : Batch tensor) : grads :=
  let g := loss_gradient (forward (model s) true b).2 true b in
  if parallel s then peers s (syncs s) g else g.

(** [compute_losses] reads the mel targets and the stop tokens of the batch
    and three entries of the output: two calls that agree on these give the
    same losses, whatever the texts, the lengths and the alignments are. *)
Theorem compute_losses_reads_targets_only (inputs inputs' : Batch tensor)
    (outputs outputs' : Outputs tensor) :
  mels inputs = mels inputs' ->
  stop_tokens inputs = stop_tokens inputs' ->
  mel_output outputs = mel_output outputs' ->
  mel_outputs_postnet outputs = mel_outputs_postnet outputs' ->
  stop_logits outputs = stop_logits outputs' ->
  compute_losses inputs outputs = compute_losses inputs' outputs'.
Proof.
  intros H1 H2 H3 H4 H5. unfold compute_losses. simpl.
  rewrite H1, H2, H3, H4, H5. reflexivity.
Qed.

(** When the loss dictionary has no entry ["loss"], the step raises
    [KeyError] after the forward pass and before anything is learnt or
    reported: no backward pass and no optimizer update is made, so the
    optimizer state is untouched and the parameters are as the one forward
    pass, run in training mode, has left them; nothing is logged or
    forwarded; the gradients have been cleared and the model has been put in
    training mode. *)
Theorem train_batch_without_loss_entry (s : Experiment) (b : Batch tensor) :
  next_batch s = Some b ->
  dict_get "loss" (step_losses s b) = None ->
  (train_batch s).1 = Raise (KeyError "loss") /\
  model (train_batch s).2 = (forward (model s) true b).2 /\
  optimizer (train_batch s).2 = optimizer s /\
  syncs (train_batch s).2 = syncs s /\
  logger (train_batch s).2 = logger s /\
  visualizer (train_batch s).2 = visualizer s /\
  grad (train_batch s).2 = [] /\
  training (train_batch s).2 = true /\
  forward_log (train_batch s).2 = forward_log s ++ [grad_enabled s].
Proof.
  intros Hb Hloss. unfold step_losses, forward in Hloss. destruct s. step_train_batch.
  all: injection Hb as ->.
  all: rewrite Hloss; simpl.
  all: repeat split.
Qed.

(** A step that completes applies one optimizer update, to the parameters
    as the forward pass of the step left them and from one gradient, that of
    this batch: the worker's own in a one-process run, the one averaged over
    the workers in a parallel run.  Gradients left over from before the step
    are discarded.  The model ends in training mode, the network has been
    called once, and the clock has been read three times. *)
Theorem train_batch_updates_once (s : Experiment) (b : Batch tensor) (v : scalar) :
  next_batch s = Some b ->
  dict_get "loss" (step_losses s b) = Some v ->
  (train_batch s).1 = Ok tt /\
  (optimizer (train_batch s).2, model (train_batch s).2)
  = adam_step (optimizer s) (forward (model s) true b).2 [step_gradient s b] /\
  grad (train_batch s).2 = [step_gradient s b] /\
  syncs (train_batch s).2 = (if parallel s then S (syncs s) else syncs s) /\
  training (train_batch s).2 = true /\
  forward_log (train_batch s).2 = forward_log s ++ [grad_enabled s] /\
  ticks (train_batch s).2 = (ticks s + 3)%nat.
Proof.
  intros Hb Hloss. unfold step_losses, step_gradient, forward in *. destruct s.
  step_train_batch.
  all: injection Hb as ->.
  all: rewrite Hloss; simpl.
  all: finish_train_batch.
  all: repeat split; try congruence; lia.
Qed.

(** What a completed step reports.  Every rank logs one line with its rank,
    the counter, the two timings and every loss; rank 0 also forwards the
    losses to the channel, one scalar per entry of the dictionary and in its
    order, tagged [train_loss/<name>] and keyed by the counter; the other
    ranks forward nothing. *)
Theorem train_batch_reports (s : Experiment) (b : Batch tensor) (v : scalar) :
  next_batch s = Some b ->
  dict_get "loss" (step_losses s b) = Some v ->
  logger (train_batch s).2
  = logger s ++ [TrainMsg (rank s) (iteration s) (t_batch s - t_start s)
                   (t_done s - t_start s) (step_losses s b)] /\
  visualizer (train_batch s).2
  = visualizer s ++
    (if (rank s =? 0)%nat
     then map (scalar_call "train_loss/" (iteration s)) (step_losses s b)
     else []).
Proof.
  intros Hb Hloss. unfold step_losses, forward in *. unfold t_batch, t_start, t_done.
  destruct s. step_train_batch.
  all: injection Hb as ->.
  all: rewrite Hloss; simpl.
  all: finish_train_batch.
  all: rewrite ?app_nil_r; split; reflexivity.
Qed.

(** *** More on a validation pass *)

(** On rank 0 a validation pass that completes logs one summary line and
    forwards, after the alignment plots, one scalar per entry of the
    averaged dictionary: same names, same values and same order in the line
    and on the channel, every call keyed by the counter as it was on entry.
    No name is looked up: the pass does not need an entry ["loss"]. *)
Theorem valid_reports_the_means (s : Experiment) :
  rank s = 0%nat ->
  (valid s).1 = Ok tt ->
  logger (valid s).2 = logger s ++ [ValidMsg (iteration s) (valid_means s)] /\
  visualizer (valid s).2
  = visualizer s
    ++ map (alignment_plot s) (enumerate (valid_loader s))
    ++ map (scalar_call "valid/" (iteration s)) (valid_means s).
Proof.
  intros Hr _. rewrite (valid_run s Hr). unfold after_valid.
  destruct s. run_setters. split; reflexivity.
Qed.

(** With no validation batch the pass logs a summary without losses and
    calls the channel not at all. *)
Theorem valid_on_empty_loader (s : Experiment) :
  rank s = 0%nat ->
  valid_loader s = [] ->
  logger (valid s).2 = logger s ++ [ValidMsg (iteration s) []] /\
  visualizer (valid s).2 = visualizer s /\
  forward_log (valid s).2 = forward_log s.
Proof.
  intros Hr Hempty. rewrite (valid_run s Hr).
  unfold after_valid, valid_means. rewrite Hempty. simpl.
  rewrite !app_nil_r. repeat split.
Qed.

(** Every loss of every validation batch, in the order of the batches. *)
Definition all_losses (s : Experiment) : list (string * scalar) :=
  concat (map (fun ib => compute_losses ib.2 (batch_outputs s ib))
            (enumerate (valid_loader s))).

Lemma collect_losses_flat s ibs : forall acc,
  collect_losses s ibs acc
  = fold_left (fun d '(k, v) => dd_append k v d)
      (concat (map (fun ib => compute_losses ib.2 (batch_outputs s ib)) ibs)) acc.
Proof.
  induction ibs as [|[i b] ibs IH]; intros acc; simpl; [reflexivity|].
  rewrite fold_left_app. apply IH.
Qed.

(** The averaged dictionary has one entry per loss name that occurs in some
    batch, and its value is the mean of the values the batches give for the
    name, taken in the order of the batches; a list handed to the mean is
    never empty. *)
Theorem valid_means_average (s : Experiment) (k : string) :
  dict_get k (valid_means s)
  = match values_of k (all_losses s) with
    | [] => None
    | vs => Some (mean vs)
    end /\
  NoDup (valid_means s).*1.
Proof.
  unfold valid_means, all_losses. split.
  - rewrite dict_get_map_values, collect_losses_flat, dict_get_collect.
    destruct (values_of k _); reflexivity.
  - rewrite collect_losses_flat.
    match goal with
    | |- NoDup (map ?f ?d).*1 => replace (map f d).*1 with d.*1
    end.
    + apply collect_NoDup. constructor.
    + generalize (fold_left (fun d '(k, v) => dd_append k v d)
                    (concat (map (fun ib => compute_losses ib.2 (batch_outputs s ib))
                               (enumerate (valid_loader s))))
                    ([] : list (string * list scalar))).
      intros d. induction d as [|[k' v] d IH]; simpl; [reflexivity | f_equal; exact IH].
Qed.

End Experiment.

End Runner.

(** ** The batch sources: [Experiment.setup_dataloader] *)

Module Loader.

(** A dataset view is the list of positions of the underlying dataset that it
    exposes, in the order of the view. *)
Definition view : Type := list nat.

(** Modelled from the spec: [parakeet.data.dataset.split] is not under src/.
    Called as [valid_set, train_set = split(dataset, valid_size)], it gives
    two slice views of the dataset; the config table documents the size as
    "the first N examples are reserved for validation", so the first view is
    the first [first_size] positions and the second one the positions after
    them.  A size below 0 or above the length of the dataset describes no
    such pair of slices and is refused with [ValueError]. *)
Definition split (len : nat) (first_size : Z) : outcome (view * view) :=
  if (first_size <? 0) || (Z.of_nat len <? first_size) then Raise ValueError
  else
    let n := Z.to_nat first_size in
    Ok (seq 0 n, seq n (len - n)).

(** Modelled from the spec: [paddle.io.DataLoader] is not under src/.  Its
    batch sampler walks the positions it is given, collects them into a
    batch, yields the batch when it holds [batch_size] positions, and at the
    end yields what is left only when [drop_last] is off ("the final partial
    batch is not dropped" for validation, "dropping trailing incomplete
    batches" for training). *)
Fixpoint batch_sampler (batch_size : nat) (drop_last : bool)
    (indices : list nat) (batch_indices : list nat) : list (list nat) :=
  match indices with
  | [] =>
      if negb drop_last && (0 <? length batch_indices)%nat then [batch_indices] else []
  | idx :: rest =>
      let batch_indices := batch_indices ++ [idx] in
      if (length batch_indices =? batch_size)%nat
      then batch_indices :: batch_sampler batch_size drop_last rest []
      else batch_sampler batch_size drop_last rest batch_indices
  end.

(** What [setup_dataloader] stores on the experiment: the batches of the
    training source for each epoch, and the batches of the validation
    source, each batch as the dataset positions collated into it. *)
Record Loaders : Type := mkLoaders {
  train_batches : Z -> list (list nat);
  valid_batches : list (list nat);
}.

Section Setup.

(** [shuffle=True]: the order in which a pass (epoch) visits a view.  Drawn
    by the library's random sampler in one process, and in parallel mode by
    [DistributedBatchSampler], which hands this rank its shard of the
    shuffled positions. *)
Variable random_sampler : Z -> view -> list nat.
Variable distributed_sampler : Z -> view -> list nat.

(** The loader's constructor asserts that [batch_size] is positive. *)
Definition check_batch_size (batch_size : Z) : outcome nat :=
  if batch_size <=? 0 then Raise AssertionError else Ok (Z.to_nat batch_size).

(** [DataLoader(train_set, ..., shuffle=True)] builds the library's random
    sampler over the view, and that sampler's constructor refuses a view
    without examples with [ValueError]; the training view is empty when
    [valid_size] is the length of the dataset.  [DistributedBatchSampler]
    and the sequential sampler of [shuffle=False] make no such check. *)
Definition check_not_empty (v : view) : outcome unit :=
  match v with
  | [] => Raise ValueError
  | _ :: _ => Ok tt
  end.

Definition setup_dataloader (parallel : bool) (len : nat) (valid_size batch_size : Z)
  : outcome Loaders :=
  match split len valid_size with
  | Raise e => Raise e
  | Ok (valid_set, train_set) =>
      match check_batch_size batch_size with
      | Raise e => Raise e
      | Ok bs =>
          let train_loader :=
            if negb parallel then
              match check_not_empty train_set with
              | Raise e => Raise e
              | Ok _ =>
                  Ok (fun epoch => batch_sampler bs true (random_sampler epoch train_set) [])
              end
            else
              Ok (fun epoch =>
                    batch_sampler bs true (distributed_sampler epoch train_set) []) in
          match train_loader with
          | Raise e => Raise e
          | Ok train_loader =>
              let valid_loader := batch_sampler bs false valid_set [] in
              Ok (mkLoaders train_loader valid_loader)
          end
      end
  end.

(** *** The batch sampler *)

Lemma batch_sampler_drop_last bs : (0 < bs)%nat ->
  forall indices acc, (length acc < bs)%nat ->
  exists dropped,
    acc ++ indices = concat (batch_sampler bs true indices acc) ++ dropped /\
    (length dropped < bs)%nat /\
    Forall (fun b => length b = bs) (batch_sampler bs true indices acc).
Proof.
  intros Hbs. induction indices as [|idx rest IH]; intros acc Hacc; simpl.
  - exists acc. rewrite app_nil_r. repeat split; [exact Hacc | constructor].
  - rewrite length_app. simpl.
    destruct (Nat.eqb_spec (length acc + 1) bs) as [Heq|Hne].
    + destruct (IH [] ltac:(simpl; lia)) as [dropped [Hcat [Hlen Hall]]].
      exists dropped. simpl in *. repeat split.
      * rewrite <- app_assoc, <- Hcat. rewrite <- app_assoc. reflexivity.
      * exact Hlen.
      * constructor; [rewrite length_app; simpl; lia | exact Hall].
    + destruct (IH (acc ++ [idx]) ltac:(rewrite length_app; simpl; lia))
        as [dropped [Hcat [Hlen Hall]]].
      exists dropped. rewrite <- app_assoc in Hcat. simpl in Hcat.
      repeat split; assumption.
Qed.

Lemma batch_sampler_keep_last bs : (0 < bs)%nat ->
  forall indices acc, (length acc < bs)%nat ->
  concat (batch_sampler bs false indices acc) = acc ++ indices /\
  Forall (fun b => (0 < length b <= bs)%nat) (batch_sampler bs false indices acc).
Proof.
  intros Hbs. induction indices as [|idx rest IH]; intros acc Hacc; simpl.
  - destruct acc as [|a acc]; simpl.
    + split; [reflexivity | constructor].
    + rewrite !app_nil_r. split; [reflexivity|].
      constructor; [simpl in *; lia | constructor].
  - rewrite length_app. simpl.
    destruct (Nat.eqb_spec (length acc + 1) bs) as [Heq|Hne].
    + destruct (IH [] ltac:(simpl; lia)) as [Hcat Hall]. simpl in *.
      rewrite Hcat, <- app_assoc. split; [reflexivity|].
      constructor; [rewrite length_app; simpl; lia | exact Hall].
    + destruct (IH (acc ++ [idx]) ltac:(rewrite length_app; simpl; lia)) as [Hcat Hall].
      rewrite Hcat, <- app_assoc. split; [reflexivity | exact Hall].
Qed.

(** The order in which the training source visits the training view. *)
Definition train_order (parallel : bool) (epoch : Z) (train_set : view) : list nat :=
  if negb parallel then random_sampler epoch train_set
  else distributed_sampler epoch train_set.

Lemma setup_dataloader_inv parallel len valid_size batch_size L :
  setup_dataloader parallel len valid_size batch_size = Ok L ->
  0 <= valid_size <= Z.of_nat len /\ 0 < batch_size /\
  let n := Z.to_nat valid_size in
  let bs := Z.to_nat batch_size in
  split len valid_size = Ok (seq 0 n, seq n (len - n)) /\
  (forall epoch,
     train_batches L epoch
     = batch_sampler bs true (train_order parallel epoch (seq n (len - n))) []) /\
  valid_batches L = batch_sampler bs false (seq 0 n) [].
Proof.
  unfold setup_dataloader, split, check_batch_size, train_order.
  destruct (Z.ltb_spec valid_size 0); simpl; [discriminate|].
  destruct (Z.ltb_spec (Z.of_nat len) valid_size); simpl; [discriminate|].
  destruct (Z.leb_spec batch_size 0); [discriminate|].
  destruct parallel; simpl.
  - intros [= <-]. simpl. repeat split; lia.
  - destruct (check_not_empty _); [|discriminate].
    intros [= <-]. simpl. repeat split; lia.
Qed.

(** In one process the setup succeeds only when an example is left for
    training. *)
Lemma setup_dataloader_one_process len valid_size batch_size L :
  setup_dataloader false len valid_size batch_size = Ok L ->
  valid_size < Z.of_nat len.
Proof.
  unfold setup_dataloader, split, check_batch_size.
  destruct (Z.ltb_spec valid_size 0); simpl; [discriminate|].
  destruct (Z.ltb_spec (Z.of_nat len) valid_size); simpl; [discriminate|].
  destruct (Z.leb_spec batch_size 0); [discriminate|]. simpl.
  destruct (len - Z.to_nat valid_size)%nat as [|m] eqn:Hm; simpl; [discriminate|].
  intros _. lia.
Qed.

Lemma setup_dataloader_succeeds parallel len valid_size batch_size :
  0 <= valid_size <= Z.of_nat len -> 0 < batch_size ->
  parallel = true \/ valid_size < Z.of_nat len ->
  exists L, setup_dataloader parallel len valid_size batch_size = Ok L.
Proof.
  intros Hv Hb Hmode. unfold setup_dataloader, split, check_batch_size.
  destruct (Z.ltb_spec valid_size 0); [lia|].
  destruct (Z.ltb_spec (Z.of_nat len) valid_size); [lia|]. simpl.
  destruct (Z.leb_spec batch_size 0); [lia|].
  destruct parallel; simpl; [eauto|].
  destruct Hmode as [Hmode|Hmode]; [discriminate|].
  destruct (len - Z.to_nat valid_size)%nat as [|m] eqn:Hm; simpl; [lia | eauto].
Qed.

(** C4. Whatever the dataset length, the sizes and the mode, once the two
    sources are set up: every batch of the training source holds exactly
    [batch_size] examples, the source having dropped a trailing run of fewer
    than [batch_size] positions of its order; and the batches of the
    validation source, none of them empty, are the validation split cut in
    order, so that one pass visits each of its [valid_size] examples. *)
Theorem train_drops_last_valid_keeps_all parallel len valid_size batch_size L :
  setup_dataloader parallel len valid_size batch_size = Ok L ->
  let n := Z.to_nat valid_size in
  let bs := Z.to_nat batch_size in
  (forall epoch,
     Forall (fun b => length b = bs) (train_batches L epoch) /\
     exists dropped,
       train_order parallel epoch (seq n (len - n))
       = concat (train_batches L epoch) ++ dropped /\
       (length dropped < bs)%nat) /\
  concat (valid_batches L) = seq 0 n /\
  length (concat (valid_batches L)) = n /\
  Forall (fun b => (0 < length b <= bs)%nat) (valid_batches L).
Proof.
  intros Hsetup. apply setup_dataloader_inv in Hsetup.
  destruct Hsetup as (Hv & Hb & _ & Htrain & Hvalid). simpl.
  assert (Hbs : (0 < Z.to_nat batch_size)%nat) by lia.
  split; [|rewrite Hvalid].
  - intros epoch. rewrite Htrain.
    destruct (batch_sampler_drop_last _ Hbs
                (train_order parallel epoch
                   (seq (Z.to_nat valid_size) (len - Z.to_nat valid_size))) [] Hbs)
      as (dropped & Hcat & Hlen & Hall).
    split; [exact Hall | exists dropped; split; [exact Hcat | exact Hlen]].
  - destruct (batch_sampler_keep_last _ Hbs (seq 0 (Z.to_nat valid_size)) [] Hbs)
      as [Hcat Hall].
    rewrite Hcat. simpl. rewrite length_seq. repeat split. exact Hall.
Qed.

(** The sampler only visits positions of the view it is given. *)
Hypothesis random_sampler_in :
  forall epoch (v : view) i, In i (random_sampler epoch v) -> In i v.
Hypothesis distributed_sampler_in :
  forall epoch (v : view) i, In i (distributed_sampler epoch v) -> In i v.

Lemma train_order_in parallel epoch v i :
  In i (train_order parallel epoch v) -> In i v.
Proof.
  unfold train_order. destruct parallel; simpl.
  - apply distributed_sampler_in.
  - apply random_sampler_in.
Qed.

(** C10. Setting up the sources partitions the dataset: the split gives two
    views, the validation view of exactly [valid_size] positions and the
    training view of the remaining ones, which together are every position
    of the dataset once; the validation source visits exactly the positions
    of the first, the training source only positions of the second, so no
    example is in a batch of both. *)
Theorem setup_partitions_dataset parallel len valid_size batch_size L :
  setup_dataloader parallel len valid_size batch_size = Ok L ->
  exists valid_set train_set,
    split len valid_size = Ok (valid_set, train_set) /\
    valid_set ++ train_set = seq 0 len /\
    NoDup (valid_set ++ train_set) /\
    Z.of_nat (length valid_set) = valid_size /\
    (length train_set = len - length valid_set)%nat /\
    (forall i, In i (concat (valid_batches L)) <-> In i valid_set) /\
    (forall epoch i, In i (concat (train_batches L epoch)) -> In i train_set) /\
    (forall epoch i,
       In i (concat (train_batches L epoch)) -> ~ In i (concat (valid_batches L))).
Proof.
  intros Hsetup. apply setup_dataloader_inv in Hsetup.
  destruct Hsetup as (Hv & Hb & Hsplit & Htrain & Hvalid). simpl in *.
  set (n := Z.to_nat valid_size) in *.
  assert (Hn : (n <= len)%nat) by lia.
  assert (Hbs : (0 < Z.to_nat batch_size)%nat) by lia.
  rewrite Hvalid.
  rewrite (proj1 (batch_sampler_keep_last _ Hbs (seq 0 n) [] Hbs)). simpl.
  assert (Hsub : forall epoch i,
             In i (concat (train_batches L epoch)) -> In i (seq n (len - n))).
  { intros epoch i Hi. rewrite Htrain in Hi.
    destruct (batch_sampler_drop_last _ Hbs
                (train_order parallel epoch (seq n (len - n))) [] Hbs)
      as (dropped & Hcat & _).
    apply (train_order_in parallel epoch). simpl in Hcat. rewrite Hcat.
    apply in_or_app. left. exact Hi. }
  exists (seq 0 n), (seq n (len - n)). repeat split.
  - exact Hsplit.
  - rewrite <- seq_app. f_equal. lia.
  - rewrite <- seq_app. apply NoDup_ListNoDup, List.seq_NoDup.
  - rewrite length_seq. lia.
  - rewrite !length_seq. reflexivity.
  - tauto.
  - tauto.
  - exact Hsub.
  - intros epoch i Hi Hj.
    apply Hsub in Hi. apply in_seq in Hi. apply in_seq in Hj. lia.
Qed.

(** *** How many batches *)

Lemma batch_sampler_count_keep bs : (0 < bs)%nat ->
  forall indices acc, (length acc < bs)%nat ->
  length (batch_sampler bs false indices acc)
  = ((length acc + length indices + bs - 1) / bs)%nat.
Proof.
  intros Hbs. induction indices as [|idx rest IH]; intros acc Hacc; simpl.
  - destruct acc as [|a acc]; simpl.
    + rewrite Nat.div_small; lia.
    + simpl in Hacc. apply (Nat.div_unique _ _ 1 (length acc)); lia.
  - rewrite length_app. simpl.
    destruct (Nat.eqb_spec (length acc + 1) bs) as [Heq|Hne]; simpl.
    + rewrite IH by (simpl; lia). simpl.
      replace (length acc + S (length rest) + bs - 1)%nat
        with (1 * bs + (length rest + bs - 1))%nat by lia.
      rewrite Nat.div_add_l by lia. reflexivity.
    + rewrite IH by (rewrite length_app; simpl; lia).
      rewrite length_app. simpl. f_equal. lia.
Qed.

Lemma batch_sampler_count_drop bs : (0 < bs)%nat ->
  forall indices acc, (length acc < bs)%nat ->
  length (batch_sampler bs true indices acc)
  = ((length acc + length indices) / bs)%nat.
Proof.
  intros Hbs. induction indices as [|idx rest IH]; intros acc Hacc; simpl.
  - rewrite Nat.div_small; lia.
  - rewrite length_app. simpl.
    destruct (Nat.eqb_spec (length acc + 1) bs) as [Heq|Hne]; simpl.
    + rewrite IH by (simpl; lia). simpl.
      replace (length acc + S (length rest))%nat with (1 * bs + length rest)%nat by lia.
      rewrite Nat.div_add_l by lia. reflexivity.
    + rewrite IH by (rewrite length_app; simpl; lia).
      rewrite length_app. simpl. f_equal. lia.
Qed.

(** The validation source is cut with the batch size of training: it has
    as many batches as [valid_size] divided by [batch_size], rounded up; an
    epoch of the training source has as many as the number of positions its
    sampler visits divided by [batch_size], rounded down. *)
Theorem batch_counts parallel len valid_size batch_size L :
  setup_dataloader parallel len valid_size batch_size = Ok L ->
  let n := Z.to_nat valid_size in
  let bs := Z.to_nat batch_size in
  length (valid_batches L) = ((n + bs - 1) / bs)%nat /\
  forall epoch,
    length (train_batches L epoch)
    = (length (train_order parallel epoch (seq n (len - n))) / bs)%nat.
Proof.
  intros Hsetup. apply setup_dataloader_inv in Hsetup.
  destruct Hsetup as (Hv & Hb & _ & Htrain & Hvalid). simpl.
  assert (Hbs : (0 < Z.to_nat batch_size)%nat) by lia.
  split.
  - rewrite Hvalid, batch_sampler_count_keep by (simpl; lia).
    simpl. rewrite length_seq. reflexivity.
  - intros epoch. rewrite Htrain, batch_sampler_count_drop by (simpl; lia).
    reflexivity.
Qed.

End Setup.

(** The validation source is built outside the branch on the mode, from
    the validation view alone.  Once the setup succeeds in some mode, it
    succeeds in parallel mode whatever the samplers draw, with the same
    validation batches; and whenever it succeeds in one process (where an
    empty training view is refused), it gives these validation batches
    too. *)
Theorem valid_loader_never_sharded
    (rs ds rs' ds' : Z -> view -> list nat) (parallel : bool)
    (len : nat) (valid_size batch_size : Z) (L : Loaders) :
  setup_dataloader rs ds parallel len valid_size batch_size = Ok L ->
  (exists L',
     setup_dataloader rs' ds' true len valid_size batch_size = Ok L' /\
     valid_batches L' = valid_batches L) /\
  (forall L',
     setup_dataloader rs' ds' false len valid_size batch_size = Ok L' ->
     valid_batches L' = valid_batches L).
Proof.
  intros Hsetup. apply setup_dataloader_inv in Hsetup.
  destruct Hsetup as (Hv & Hb & _ & _ & Hvalid). split.
  - destruct (setup_dataloader_succeeds rs' ds' true len valid_size batch_size Hv Hb)
      as [L' HL']; [left; reflexivity|].
    exists L'. split; [exact HL'|].
    apply setup_dataloader_inv in HL'. destruct HL' as (_ & _ & _ & _ & Hvalid').
    simpl in *. congruence.
  - intros L' HL'.
    apply setup_dataloader_inv in HL'. destruct HL' as (_ & _ & _ & _ & Hvalid').
    simpl in *. congruence.
Qed.

End Loader.

(** ** The launcher and the entry point of [train.py] *)

Module Launch.

(** What the argument parser hands over, as far as the script reads it. *)
Record Args : Type := mkArgs {
  config : option string;
  data : string;
  device : string;
  nprocs : Z;
  opts : list string;
}.

Section Main.

Context {Config : Type}.

(** One run of [main_sp(config, args)], by the process of rank [w_rank]. *)
Record worker : Type := mkWorker {
  w_rank : nat;
  w_config : Config;
  w_args : Args;
}.

Inductive started : Type :=
| InProcess (cfg : Config) (args : Args)
| Spawned (workers : list worker).

(** Modelled from the spec: [paddle.distributed.spawn] is not under src/.
    [dist.spawn(main_sp, args=(config, args), nprocs=n)] "spawns N worker
    processes, each receiving an identical copy of the frozen Config and a
    unique rank in [0, N)". *)
Definition dist_spawn (cfg : Config) (args : Args) (n : Z) : list worker :=
  map (fun r => mkWorker r cfg args) (seq 0 (Z.to_nat n)).

Definition main (cfg : Config) (args : Args) : started :=
  if (1 <? nprocs args) && String.eqb (device args) "gpu"
  then Spawned (dist_spawn cfg args (nprocs args))
  else InProcess cfg args.

(** C5. The launcher spawns exactly when more than one process is asked for
    on the gpu device, and then starts [nprocs] workers, ranked 0, 1, ... and
    so each with a rank of its own, all on the same config and arguments; in
    every other case ([nprocs] at most 1, or any device other than "gpu") it
    runs the experiment in the current process. *)
Theorem main_spawns_iff_many_on_gpu (cfg : Config) (args : Args) :
  (1 < nprocs args /\ device args = "gpu" ->
   exists workers,
     main cfg args = Spawned workers /\
     Z.of_nat (length workers) = nprocs args /\
     map w_rank workers = seq 0 (length workers) /\
     NoDup (map w_rank workers) /\
     Forall (fun w => w_config w = cfg /\ w_args w = args) workers) /\
  (~ (1 < nprocs args /\ device args = "gpu") -> main cfg args = InProcess cfg args).
Proof.
  unfold main. split.
  - intros [Hn Hd].
    destruct (Z.ltb_spec 1 (nprocs args)); [|lia].
    rewrite Hd, String.eqb_refl. simpl.
    exists (dist_spawn cfg args (nprocs args)). unfold dist_spawn.
    rewrite length_map, length_seq, map_map, map_id. repeat split.
    + lia.
    + apply NoDup_ListNoDup, List.seq_NoDup.
    + apply Forall_forall. intros w Hw. apply list_elem_of_In, in_map_iff in Hw.
      destruct Hw as [r [<- _]]. split; reflexivity.
  - intros Hnot.
    destruct (Z.ltb_spec 1 (nprocs args)); simpl; [|reflexivity].
    destruct (String.eqb_spec (device args) "gpu"); [|reflexivity].
    exfalso. apply Hnot. split; assumption.
Qed.

End Main.

End Launch.

(** ** The config object of the entry point *)

Module ConfigTree.

#[warnings="-register-all"]
Inductive value : Type :=
| VInt (z : Z)
| VFloat (q : Q)
| VStr (s : string)
| VBool (b : bool)
| VList (items : list value).

(** An override is compatible with the default it replaces when both are of
    the same kind. *)
Definition same_type (old new : value) : bool :=
  match old, new with
  | VInt _, VInt _ | VFloat _, VFloat _ | VStr _, VStr _
  | VBool _, VBool _ | VList _, VList _ => true
  | _, _ => false
  end.

(** Ghost record of the operations applied to a config, in order. *)
Inductive config_call : Type :=
| CallMergeFromFile (path : string)
| CallMergeFromList (flat : list string)
| CallFreeze.

(** Modelled from the spec: the config class ([yacs.config.CfgNode]) is not
    under src/.  A [Config] is "a nested mapping from dotted keys (e.g.
    [training.lr]) to scalar or list values" that can be frozen; [calls] is
    a ghost field. *)
Record Config : Type := mkConfig {
  frozen : bool;
  entries : gmap string value;
  calls : list config_call;
}.

Definition log_call (c : config_call) : M Config unit :=
  modify (fun cfg => mkConfig (frozen cfg) (entries cfg) (calls cfg ++ [c])).

(** Modelled from the spec: one write to the config.  "Any write attempt
    after freeze fails with ConfigError"; before it, a write "fails with
    ConfigError if a key does not exist in the default schema or has an
    incompatible type", and otherwise replaces the value under the key. *)
Definition set_key (kv : string * value) : M Config unit := fun cfg =>
  if frozen cfg then (Raise ConfigError, cfg)
  else
    match entries cfg !! kv.1 with
    | None => (Raise ConfigError, cfg)
    | Some old =>
        if same_type old kv.2
        then (Ok tt, mkConfig (frozen cfg) (<[kv.1 := kv.2]> (entries cfg)) (calls cfg))
        else (Raise ConfigError, cfg)
    end.

(** [[key, value, key, value, ...]] read as pairs; a list of odd length has
    no such reading. *)
Fixpoint pairs (flat : list string) : option (list (string * string)) :=
  match flat with
  | [] => Some []
  | [_] => None
  | k :: v :: rest => option_map (cons (k, v)) (pairs rest)
  end.

Section Operations.

(** The files the process can read, each already parsed into the dotted
    keys it sets, in the order of the file; and the reading of an override
    given as text on the command line. *)
Variable files : string -> option (list (string * value)).
Variable decode : string -> value.

(** Modelled from the spec: [merge_from_file(Config, path)] "overlays values
    found in a structured file onto the tree, key by key, leaving keys
    absent from the file untouched". *)
Definition merge_from_file (path : string) : M Config unit :=
  log_call (CallMergeFromFile path);;
  match files path with
  | None => raise IOError
  | Some kvs => for_each kvs set_key
  end.

(** Modelled from the spec: [merge_from_list(Config, flat_list)] "applies
    [key, value, key, value, ...] overrides with the same validation". *)
Definition merge_from_list (flat : list string) : M Config unit :=
  log_call (CallMergeFromList flat);;
  match pairs flat with
  | None => raise ConfigError
  | Some kvs => for_each (map (fun kv => (kv.1, decode kv.2)) kvs) set_key
  end.

(** Modelled from the spec: [freeze(Config)] "finalizes the tree". *)
Definition freeze : M Config unit :=
  log_call CallFreeze;;
  modify (fun cfg => mkConfig true (entries cfg) (calls cfg)).

(** *** The [__main__] block of [train.py] *)

(** Truth value of [args.config]: [None] and the empty string are false. *)
Definition given_path (p : option string) : option string :=
  match p with
  | Some s => if String.eqb s "" then None else Some s
  | None => None
  end.

(** What the block does to [config], the object [get_cfg_defaults()]
    returned, up to the call of [main]. *)
Definition prepare_config (args : Launch.Args) : M Config unit :=
  match given_path (Launch.config args) with
  | Some path => merge_from_file path
  | None => mret tt
  end;;
  match Launch.opts args with
  | [] => mret tt
  | flat => merge_from_list flat
  end;;
  freeze.

Definition entry (defaults : Config) (args : Launch.Args)
  : outcome (@Launch.started Config) * Config :=
  let config := defaults in
  match prepare_config args config with
  | (Ok _, config) => (Ok (Launch.main config args), config)
  | (Raise e, config) => (Raise e, config)
  end.

(** *** Overrides *)

Definition overlay (m : gmap string value) (kvs : list (string * value)) : gmap string value :=
  fold_left (fun m kv => <[kv.1 := kv.2]> m) kvs m.

(** The value the last override of key [k] in [kvs] gives it, if any. *)
Fixpoint last_override (k : string) (kvs : list (string * value)) : option value :=
  match kvs with
  | [] => None
  | kv :: rest =>
      match last_override k rest with
      | Some v => Some v
      | None => if decide (k = kv.1) then Some kv.2 else None
      end
  end.

Lemma overlay_lookup kvs : forall m k,
  overlay m kvs !! k
  = match last_override k kvs with Some v => Some v | None => m !! k end.
Proof.
  induction kvs as [|[k' v] rest IH]; intros m k; simpl; [reflexivity|].
  rewrite IH. destruct (last_override k rest); [reflexivity|].
  destruct (decide (k = k')) as [->|Hne]; simpl.
  - apply lookup_insert_eq.
  - apply lookup_insert_ne. congruence.
Qed.

Lemma writes_ok kvs : forall cfg cfg',
  for_each kvs set_key cfg = (Ok tt, cfg') ->
  frozen cfg' = frozen cfg /\ calls cfg' = calls cfg /\
  entries cfg' = overlay (entries cfg) kvs /\
  (kvs <> [] -> frozen cfg = false).
Proof.
  induction kvs as [|kv rest IH]; intros cfg cfg' H; simpl in H.
  - injection H as <-. repeat split; congruence.
  - rewrite bind_run in H. unfold set_key at 1 in H.
    destruct (frozen cfg) eqn:Hf; [discriminate|].
    destruct (entries cfg !! kv.1) as [old|]; [|discriminate].
    destruct (same_type old kv.2); [|discriminate].
    apply IH in H. simpl in H. destruct H as (H1 & H2 & H3 & _).
    repeat split; try congruence. exact H3.
Qed.

(** On a frozen config no list of writes changes anything, and a list with
    at least one write raises [ConfigError]. *)
Lemma writes_frozen kvs cfg :
  frozen cfg = true ->
  (for_each kvs set_key cfg).2 = cfg /\
  (kvs <> [] -> (for_each kvs set_key cfg).1 = Raise ConfigError).
Proof.
  intros Hf. destruct kvs as [|kv rest]; simpl.
  - split; [reflexivity | congruence].
  - rewrite bind_run. unfold set_key. rewrite Hf. split; reflexivity.
Qed.

Lemma merge_from_file_ok path cfg cfg' :
  merge_from_file path cfg = (Ok tt, cfg') ->
  exists kvs,
    files path = Some kvs /\ frozen cfg' = frozen cfg /\
    calls cfg' = calls cfg ++ [CallMergeFromFile path] /\
    entries cfg' = overlay (entries cfg) kvs.
Proof.
  unfold merge_from_file. rewrite bind_run. simpl.
  destruct (files path) as [kvs|]; [|discriminate].
  intros H. apply writes_ok in H. simpl in H. destruct H as (H1 & H2 & H3 & _).
  exists kvs. repeat split; assumption.
Qed.

Lemma merge_from_list_ok flat cfg cfg' :
  merge_from_list flat cfg = (Ok tt, cfg') ->
  exists kvs,
    pairs flat = Some kvs /\ frozen cfg' = frozen cfg /\
    calls cfg' = calls cfg ++ [CallMergeFromList flat] /\
    entries cfg' = overlay (entries cfg) (map (fun kv => (kv.1, decode kv.2)) kvs).
Proof.
  unfold merge_from_list. rewrite bind_run. simpl.
  destruct (pairs flat) as [kvs|]; [|discriminate].
  intros H. apply writes_ok in H. simpl in H. destruct H as (H1 & H2 & H3 & _).
  exists kvs. repeat split; assumption.
Qed.

Lemma merge_from_file_frozen path cfg :
  frozen cfg = true ->
  entries (merge_from_file path cfg).2 = entries cfg /\
  frozen (merge_from_file path cfg).2 = true /\
  (forall kvs, files path = Some kvs -> kvs <> [] ->
     (merge_from_file path cfg).1 = Raise ConfigError).
Proof.
  intros Hf. unfold merge_from_file. rewrite bind_run. simpl.
  destruct (files path) as [kvs|]; simpl.
  - match goal with
    | |- context [ for_each kvs set_key ?c ] =>
        destruct (writes_frozen kvs c Hf) as [Hst Hres]
    end.
    rewrite Hst. simpl. repeat split; [exact Hf|].
    intros kvs' [= <-] Hne. exact (Hres Hne).
  - repeat split; [exact Hf | discriminate].
Qed.

Lemma pairs_nonempty flat kvs : pairs flat = Some kvs -> flat <> [] -> kvs <> [].
Proof.
  destruct flat as [|k [|v rest]]; simpl; try congruence.
  destruct (pairs rest); simpl; congruence.
Qed.

Lemma merge_from_list_frozen flat cfg :
  frozen cfg = true ->
  entries (merge_from_list flat cfg).2 = entries cfg /\
  frozen (merge_from_list flat cfg).2 = true /\
  (flat <> [] -> (merge_from_list flat cfg).1 = Raise ConfigError).
Proof.
  intros Hf. unfold merge_from_list. rewrite bind_run. simpl.
  destruct (pairs flat) as [kvs|] eqn:Hp; simpl.
  - match goal with
    | |- context [ for_each ?l set_key ?c ] =>
        destruct (writes_frozen l c Hf) as [Hst Hres]
    end.
    rewrite Hst. simpl. repeat split; [exact Hf|].
    intros Hne. apply Hres. pose proof (pairs_nonempty _ _ Hp Hne) as Hk.
    destruct kvs; [congruence | discriminate].
  - repeat split. exact Hf.
Qed.

(** The overrides a run of the entry point applies, and its calls. *)
Definition file_overrides (args : Launch.Args) : list (string * value) :=
  match given_path (Launch.config args) with
  | Some path => default [] (files path)
  | None => []
  end.

Definition list_overrides (args : Launch.Args) : list (string * value) :=
  map (fun kv => (kv.1, decode kv.2)) (default [] (pairs (Launch.opts args))).

Definition expected_calls (args : Launch.Args) : list config_call :=
  match given_path (Launch.config args) with
  | Some path => [CallMergeFromFile path]
  | None => []
  end ++
  match Launch.opts args with
  | [] => []
  | flat => [CallMergeFromList flat]
  end ++ [CallFreeze].

Lemma frozen_rejects cfg :
  frozen cfg = true ->
  (forall kv, set_key kv cfg = (Raise ConfigError, cfg)) /\
  (forall flat,
     entries (merge_from_list flat cfg).2 = entries cfg /\
     frozen (merge_from_list flat cfg).2 = true /\
     (flat <> [] -> (merge_from_list flat cfg).1 = Raise ConfigError)) /\
  (forall path,
     entries (merge_from_file path cfg).2 = entries cfg /\
     frozen (merge_from_file path cfg).2 = true /\
     (forall kvs, files path = Some kvs -> kvs <> [] ->
        (merge_from_file path cfg).1 = Raise ConfigError)).
Proof.
  intros Hf. split; [|split].
  - intros kv. unfold set_key. rewrite Hf. reflexivity.
  - intros flat. apply merge_from_list_frozen, Hf.
  - intros path. apply merge_from_file_frozen, Hf.
Qed.

Lemma freeze_run cfg :
  freeze cfg = (Ok tt, mkConfig true (entries cfg) (calls cfg ++ [CallFreeze])).
Proof. reflexivity. Qed.

Lemma prepare_config_ok args defaults cfg :
  prepare_config args defaults = (Ok tt, cfg) ->
  calls cfg = calls defaults ++ expected_calls args /\
  frozen cfg = true /\
  entries cfg = overlay (overlay (entries defaults) (file_overrides args)) (list_overrides args).
Proof.
  unfold prepare_config, file_overrides, list_overrides, expected_calls.
  rewrite bind_run.
  destruct (given_path (Launch.config args)) as [path|].
  - destruct (merge_from_file path defaults) as [[[]|e] c1] eqn:Hfile; [|discriminate].
    destruct (merge_from_file_ok _ _ _ Hfile) as (fkvs & Hfiles & Hf1 & Hc1 & He1).
    rewrite Hfiles. simpl. rewrite bind_run.
    destruct (Launch.opts args) as [|o flat].
    + simpl. intros [= <-]. simpl. rewrite Hc1, He1, <- app_assoc. repeat split.
    + destruct (merge_from_list (o :: flat) c1) as [[[]|e] c2] eqn:Hlist; [|discriminate].
      destruct (merge_from_list_ok _ _ _ Hlist) as (lkvs & Hpairs & Hf2 & Hc2 & He2).
      rewrite Hpairs, freeze_run. simpl. intros [= <-]. simpl.
      rewrite Hc2, He2, Hc1, He1, <- !app_assoc. repeat split.
  - simpl. rewrite bind_run.
    destruct (Launch.opts args) as [|o flat].
    + simpl. intros [= <-]. simpl. repeat split.
    + destruct (merge_from_list (o :: flat) defaults) as [[[]|e] c2] eqn:Hlist; [|discriminate].
      destruct (merge_from_list_ok _ _ _ Hlist) as (lkvs & Hpairs & Hf2 & Hc2 & He2).
      rewrite Hpairs, freeze_run. simpl. intros [= <-]. simpl.
      rewrite Hc2, He2, <- !app_assoc. repeat split.
Qed.

(** C8.  When the entry point reaches [main], the config it passes on has
    seen, in this order and nothing else: [merge_from_file] if a config file
    was given, [merge_from_list] if overrides were given, then [freeze].
    It is frozen; each key holds the last value the list overrides give it,
    else the last value the file gives it, else its default.  From then on
    every write fails with [ConfigError] and leaves the config as it is,
    and so does every merge that has something to write. *)
Theorem entry_merges_then_freezes defaults args st cfg :
  entry defaults args = (Ok st, cfg) ->
  calls cfg = calls defaults ++ expected_calls args /\
  frozen cfg = true /\
  st = Launch.main cfg args /\
  (forall k,
     entries cfg !! k
     = match last_override k (list_overrides args) with
       | Some v => Some v
       | None =>
           match last_override k (file_overrides args) with
           | Some v => Some v
           | None => entries defaults !! k
           end
       end) /\
  (forall kv, set_key kv cfg = (Raise ConfigError, cfg)) /\
  (forall flat,
     entries (merge_from_list flat cfg).2 = entries cfg /\
     frozen (merge_from_list flat cfg).2 = true /\
     (flat <> [] -> (merge_from_list flat cfg).1 = Raise ConfigError)) /\
  (forall path,
     entries (merge_from_file path cfg).2 = entries cfg /\
     frozen (merge_from_file path cfg).2 = true /\
     (forall kvs, files path = Some kvs -> kvs <> [] ->
        (merge_from_file path cfg).1 = Raise ConfigError)).
Proof.
  unfold entry.
  destruct (prepare_config args defaults) as [[[]|e] c] eqn:Hprep; [|discriminate].
  intros [= <- <-].
  destruct (prepare_config_ok _ _ _ Hprep) as (Hcalls & Hfrozen & Hentries).
  split; [exact Hcalls|]. split; [exact Hfrozen|]. split; [reflexivity|].
  split; [|apply frozen_rejects, Hfrozen].
  intros k. rewrite Hentries, !overlay_lookup. reflexivity.
Qed.

(** *** When the entry point fails, and when it cannot *)

Lemma set_key_keeps_flags kv :
  preserves frozen (set_key kv) /\ preserves calls (set_key kv).
Proof.
  split; intros cfg; unfold set_key; repeat case_match; simpl; congruence.
Qed.

Lemma writes_keep_flags kvs :
  preserves frozen (for_each kvs set_key) /\ preserves calls (for_each kvs set_key).
Proof.
  split; apply preserves_for_each; intros kv; apply set_key_keeps_flags.
Qed.

Lemma merge_from_file_flags path cfg :
  frozen (merge_from_file path cfg).2 = frozen cfg /\
  calls (merge_from_file path cfg).2 = calls cfg ++ [CallMergeFromFile path].
Proof.
  unfold merge_from_file. rewrite bind_run. simpl.
  destruct (files path) as [kvs|]; simpl; [|split; reflexivity].
  destruct (writes_keep_flags kvs) as [Hf Hc]. rewrite Hf, Hc. split; reflexivity.
Qed.

Lemma merge_from_list_flags flat cfg :
  frozen (merge_from_list flat cfg).2 = frozen cfg /\
  calls (merge_from_list flat cfg).2 = calls cfg ++ [CallMergeFromList flat].
Proof.
  unfold merge_from_list. rewrite bind_run. simpl.
  destruct (pairs flat) as [kvs|]; simpl; [|split; reflexivity].
  match goal with
  | |- context [ for_each ?l set_key ] => destruct (writes_keep_flags l) as [Hf Hc]
  end.
  rewrite Hf, Hc. split; reflexivity.
Qed.

(** When an override fails, the entry point stops there: [freeze] has not
    been called, the config is left as frozen or not as the defaults were,
    and [main] is not reached (the outcome is the exception). *)
Theorem entry_failure_stops_before_freeze defaults args e cfg :
  entry defaults args = (Raise e, cfg) ->
  frozen cfg = frozen defaults /\
  exists done,
    calls cfg = calls defaults ++ done /\
    ~ In CallFreeze done.
Proof.
  unfold entry, prepare_config. rewrite bind_run.
  destruct (given_path (Launch.config args)) as [path|].
  - destruct (merge_from_file_flags path defaults) as [Hf1 Hc1].
    destruct (merge_from_file path defaults) as [[[]|e1] c1]; simpl in *.
    + rewrite bind_run.
      destruct (Launch.opts args) as [|o flat]; [discriminate|].
      destruct (merge_from_list_flags (o :: flat) c1) as [Hf2 Hc2].
      destruct (merge_from_list (o :: flat) c1) as [[[]|e2] c2]; simpl in *;
        [discriminate|].
      intros [= <- <-]. split; [congruence|].
      exists [CallMergeFromFile path; CallMergeFromList (o :: flat)]. split.
      * rewrite Hc2, Hc1, <- app_assoc. reflexivity.
      * intros [H|[H|[]]]; discriminate.
    + intros [= <- <-]. split; [exact Hf1|].
      exists [CallMergeFromFile path]. split; [exact Hc1|].
      intros [H|[]]; discriminate.
  - simpl. rewrite bind_run.
    destruct (Launch.opts args) as [|o flat]; [discriminate|].
    destruct (merge_from_list_flags (o :: flat) defaults) as [Hf2 Hc2].
    destruct (merge_from_list (o :: flat) defaults) as [[[]|e2] c2]; simpl in *;
      [discriminate|].
    intros [= <- <-]. split; [exact Hf2|].
    exists [CallMergeFromList (o :: flat)]. split; [exact Hc2|].
    intros [H|[]]; discriminate.
Qed.

(** Without overrides the entry point cannot fail: when no config file is
    given (or its path is the empty string, which counts as none) and the
    list of overrides is empty, the only call is [freeze], and [main] is
    started on a frozen config whose entries are those of the defaults. *)
Theorem entry_without_overrides defaults args :
  (Launch.config args = None \/ Launch.config args = Some "") ->
  Launch.opts args = [] ->
  exists cfg,
    entry defaults args = (Ok (Launch.main cfg args), cfg) /\
    frozen cfg = true /\
    entries cfg = entries defaults /\
    calls cfg = calls defaults ++ [CallFreeze].
Proof.
  intros Hpath Hopts. unfold entry, prepare_config.
  assert (Hnone : given_path (Launch.config args) = None)
    by (destruct Hpath as [-> | ->]; reflexivity).
  rewrite Hnone, Hopts. simpl.
  eexists. split; [reflexivity|]. repeat split.
Qed.

End Operations.

End ConfigTree.

(** ** The default tree of [waveflow/config.py]

    Config nodes and lists are Python objects that are shared by reference
    and changed in place.  They live in a heap: a location is an index, a
    new object goes to the end. *)

Module Defaults.

Definition loc : Type := nat.

Inductive scalar : Type :=
| SInt (z : Z)
| SFloat (q : Q)
| SStr (s : string)
| SBool (b : bool).

Inductive val : Type :=
| Scalar (s : scalar)
| Ref (l : loc).

(** A [CfgNode] with its immutability flag and its keys in insertion order,
    or a Python list. *)
Inductive obj : Type :=
| CfgNode (immutable : bool) (fields : list (string * val))
| PyList (items : list val).

Abbreviation heap := (list obj).

Definition obj_vals (o : obj) : list val :=
  match o with
  | CfgNode _ fields => fields.*2
  | PyList items => items
  end.

(** *** Objects *)

Definition alloc (o : obj) : M heap val := fun h => (Ok (Ref (length h)), h ++ [o]).

(** [d[k] = v] on a dictionary: the value is replaced in place, a new key
    goes to the end. *)
Fixpoint dict_set (k : string) (v : val) (d : list (string * val)) : list (string * val) :=
  match d with
  | [] => [(k, v)]
  | (k', v') :: d' =>
      if String.eqb k k' then (k', v) :: d' else (k', v') :: dict_set k v d'
  end.

Fixpoint dict_del (k : string) (d : list (string * val)) : list (string * val) :=
  match d with
  | [] => []
  | (k', v') :: d' => if String.eqb k k' then d' else (k', v') :: dict_del k d'
  end.

(** [CN()] and [CN(dict(k=v, ...))]: a new node, not frozen. *)
Definition CN (fields : list (string * val)) : M heap val := alloc (CfgNode false fields).

(** [[x, y, ...]] *)
Definition new_list (items : list scalar) : M heap val := alloc (PyList (map Scalar items)).

(** [node.name = v].  A frozen node refuses the assignment. *)
Definition setattr (node : val) (name : string) (v : val) : M heap unit := fun h =>
  match node with
  | Ref l =>
      match h !! l with
      | Some (CfgNode immutable fields) =>
          if immutable then (Raise AttributeError, h)
          else (Ok tt, <[l := CfgNode immutable (dict_set name v fields)]> h)
      | _ => (Raise AttributeError, h)
      end
  | Scalar _ => (Raise AttributeError, h)
  end.

(** *** [copy.deepcopy], which is what [CfgNode.clone] does

    A node or a list is copied into a new object whose values are copies of
    the values of the original; numbers and strings are shared.  The
    recursion is bounded by [fuel]. *)
Fixpoint deepcopy (fuel : nat) (v : val) : M heap val :=
  match v with
  | Scalar s => mret (Scalar s)
  | Ref l =>
      match fuel with
      | O => raise RecursionError
      | S fuel' =>
          o ← gets (fun h => h !! l);
          match o with
          | Some (CfgNode immutable fields) =>
              fields' ← map_each (fun kv => v' ← deepcopy fuel' kv.2; mret (kv.1, v')) fields;
              alloc (CfgNode immutable fields')
          | Some (PyList items) =>
              items' ← map_each (deepcopy fuel') items;
              alloc (PyList items')
          | None => raise ValueError
          end
      end
  end.

(** No chain of references in a heap without cycles is longer than the
    heap: its length is fuel enough. *)
Definition clone (self : val) : M heap val := fun h => deepcopy (length h) self h.

(** *** The module [config.py] *)

(** The statements of the module body that build [_C]. *)
Definition module_body : M heap val :=
  _C ← CN [];
  data ← CN [("batch_size", Scalar (SInt 8));
             ("valid_size", Scalar (SInt 64));
             ("sample_rate", Scalar (SInt 22050));
             ("n_fft", Scalar (SInt 1024));
             ("win_length", Scalar (SInt 1024));
             ("hop_length", Scalar (SInt 256));
             ("f_max", Scalar (SInt 8000));
             ("n_mels", Scalar (SInt 80));
             ("clip_frames", Scalar (SInt 65))];
  setattr _C "data" data;;
  upsample_factors ← new_list [SInt 16; SInt 16];
  kernel_size ← new_list [SInt 3; SInt 3];
  model ← CN [("upsample_factors", upsample_factors);
              ("n_flows", Scalar (SInt 8));
              ("n_layers", Scalar (SInt 8));
              ("n_group", Scalar (SInt 16));
              ("channels", Scalar (SInt 128));
              ("kernel_size", kernel_size);
              ("sigma", Scalar (SFloat 1))];
  setattr _C "model" model;;
  training ← CN [("lr", Scalar (SFloat (1 # 10000)));
                 ("valid_interval", Scalar (SInt 1000));
                 ("save_interval", Scalar (SInt 10000));
                 ("max_iteration", Scalar (SInt 3000000))];
  setattr _C "training" training;;
  mret _C.

(** The heap once the module is imported, and the global [_C]. *)
Definition imported : outcome val * heap := module_body [].
Definition module_heap : heap := imported.2.
Definition _C : val := match imported.1 with Ok v => v | Raise _ => Ref 0%nat end.

Definition get_cfg_defaults : M heap val := clone _C.

(** *** Reading a config as a value *)

#[warnings="-register-all"]
Inductive tree : Type :=
| TScalar (s : scalar)
| TNode (immutable : bool) (fields : list (string * tree))
| TList (items : list tree).

Fixpoint read_tree (fuel : nat) (h : heap) (v : val) : option tree :=
  match v with
  | Scalar s => Some (TScalar s)
  | Ref l =>
      match fuel with
      | O => None
      | S fuel' =>
          match h !! l with
          | Some (CfgNode immutable fields) =>
              fields' ← mapM (fun kv => t ← read_tree fuel' h kv.2; Some (kv.1, t)) fields;
              Some (TNode immutable fields')
          | Some (PyList items) =>
              items' ← mapM (read_tree fuel' h) items;
              Some (TList items')
          | None => None
          end
      end
  end.

Definition config_value (h : heap) (v : val) : option tree := read_tree (length h) h v.

(** The defaults as the source writes them. *)
Definition default_tree : tree :=
  TNode false
    [("data", TNode false
        [("batch_size", TScalar (SInt 8));
         ("valid_size", TScalar (SInt 64));
         ("sample_rate", TScalar (SInt 22050));
         ("n_fft", TScalar (SInt 1024));
         ("win_length", TScalar (SInt 1024));
         ("hop_length", TScalar (SInt 256));
         ("f_max", TScalar (SInt 8000));
         ("n_mels", TScalar (SInt 80));
         ("clip_frames", TScalar (SInt 65))]);
     ("model", TNode false
        [("upsample_factors", TList [TScalar (SInt 16); TScalar (SInt 16)]);
         ("n_flows", TScalar (SInt 8));
         ("n_layers", TScalar (SInt 8));
         ("n_group", TScalar (SInt 16));
         ("channels", TScalar (SInt 128));
         ("kernel_size", TList [TScalar (SInt 3); TScalar (SInt 3)]);
         ("sigma", TScalar (SFloat 1))]);
     ("training", TNode false
        [("lr", TScalar (SFloat (1 # 10000)));
         ("valid_interval", TScalar (SInt 1000));
         ("save_interval", TScalar (SInt 10000));
         ("max_iteration", TScalar (SInt 3000000))])].

Example module_defines_defaults :
  imported.1 = Ok (Ref 0%nat) /\ config_value module_heap _C = Some default_tree.
Proof. split; reflexivity. Qed.

Example first_copy_is_default :
  exists c h, get_cfg_defaults module_heap = (Ok c, h) /\ c <> _C /\
              config_value h c = Some default_tree.
Proof. eexists _, _. split; [reflexivity|]. split; [discriminate | reflexivity]. Qed.

(** *** Reading is stable under more fuel and a longer heap *)

Lemma read_tree_extend fuel : forall h v t,
  read_tree fuel h v = Some t ->
  forall fuel' ext, (fuel <= fuel')%nat -> read_tree fuel' (h ++ ext) v = Some t.
Proof.
  induction fuel as [|fuel IH]; intros h v t Hread fuel' ext Hle.
  - destruct v as [s|l]; simpl in Hread; [|discriminate].
    destruct fuel'; exact Hread.
  - destruct v as [s|l]; simpl in Hread; [destruct fuel'; exact Hread|].
    destruct fuel' as [|fuel']; [lia|]. simpl.
    destruct (h !! l) as [o|] eqn:Hl; [|discriminate].
    rewrite (lookup_app_l_Some _ _ _ _ Hl).
    destruct o as [immutable fields|items].
    + destruct (mapM _ fields) as [fields'|] eqn:Hm; [|discriminate].
      simpl in Hread. injection Hread as <-.
      apply mapM_Some in Hm.
      erewrite (proj2 (mapM_Some _ fields fields')); [reflexivity|].
      eapply Forall2_impl; [exact Hm|]. simpl. intros kv kt Hkv.
      destruct (read_tree fuel h kv.2) as [t'|] eqn:Hr; [|discriminate].
      rewrite (IH _ _ _ Hr fuel' ext ltac:(lia)). exact Hkv.
    + destruct (mapM _ items) as [items'|] eqn:Hm; [|discriminate].
      simpl in Hread. injection Hread as <-.
      apply mapM_Some in Hm.
      erewrite (proj2 (mapM_Some _ items items')); [reflexivity|].
      eapply Forall2_impl; [exact Hm|]. simpl. intros v t' Hr.
      exact (IH _ _ _ Hr fuel' ext ltac:(lia)).
Qed.

Lemma read_items_extend fuel h ext items ts :
  mapM (read_tree fuel h) items = Some ts ->
  mapM (read_tree fuel (h ++ ext)) items = Some ts.
Proof.
  intros Hm. apply mapM_Some in Hm. apply mapM_Some.
  eapply Forall2_impl; [exact Hm|]. simpl. intros v t Hr.
  exact (read_tree_extend _ _ _ _ Hr fuel ext (Nat.le_refl _)).
Qed.

Lemma read_fields_extend fuel h ext (fields : list (string * val)) ts :
  mapM (fun kv => t ← read_tree fuel h kv.2; Some (kv.1, t)) fields = Some ts ->
  mapM (fun kv => t ← read_tree fuel (h ++ ext) kv.2; Some (kv.1, t)) fields = Some ts.
Proof.
  intros Hm. apply mapM_Some in Hm. apply mapM_Some.
  eapply Forall2_impl; [exact Hm|]. simpl. intros kv kt Hkv.
  destruct (read_tree fuel h kv.2) as [t|] eqn:Hr; [|discriminate].
  rewrite (read_tree_extend _ _ _ _ Hr fuel ext (Nat.le_refl _)). exact Hkv.
Qed.

(** *** A copy is made of new objects and reads as the original *)

(** A value that does not point below location [n]. *)
Definition val_fresh (n : nat) (v : val) : Prop :=
  match v with
  | Ref l => (n <= l)%nat
  | Scalar _ => True
  end.

Definition objs_fresh (n : nat) (objs : list obj) : Prop :=
  Forall (fun o => Forall (val_fresh n) (obj_vals o)) objs.

Lemma val_fresh_mono n m v : (n <= m)%nat -> val_fresh m v -> val_fresh n v.
Proof. destruct v; simpl; lia. Qed.

Lemma vals_fresh_mono n m vs :
  (n <= m)%nat -> Forall (val_fresh m) vs -> Forall (val_fresh n) vs.
Proof.
  intros Hle H. eapply Forall_impl; [exact H|]. intros v. apply val_fresh_mono, Hle.
Qed.

Lemma objs_fresh_mono n m objs : (n <= m)%nat -> objs_fresh m objs -> objs_fresh n objs.
Proof.
  intros Hle H. eapply Forall_impl; [exact H|]. intros o. apply vals_fresh_mono, Hle.
Qed.

Definition copied (fuel : nat) (h : heap) (v : val) (t : tree) : Prop :=
  exists v' new,
    deepcopy fuel v h = (Ok v', h ++ new) /\
    read_tree fuel (h ++ new) v' = Some t /\
    val_fresh (length h) v' /\
    objs_fresh (length h) new.

Lemma copy_items fuel :
  (forall h v t, read_tree fuel h v = Some t -> copied fuel h v t) ->
  forall items h ts,
    mapM (read_tree fuel h) items = Some ts ->
    exists items' new,
      map_each (deepcopy fuel) items h = (Ok items', h ++ new) /\
      mapM (read_tree fuel (h ++ new)) items' = Some ts /\
      Forall (val_fresh (length h)) items' /\
      objs_fresh (length h) new.
Proof.
  intros IH. induction items as [|v items IHitems]; intros h ts Hm.
  - injection Hm as <-. exists [], []. rewrite app_nil_r.
    repeat split; constructor.
  - simpl in Hm. destruct (read_tree fuel h v) as [t|] eqn:Hv; [|discriminate].
    simpl in Hm. destruct (mapM (read_tree fuel h) items) as [ts'|] eqn:Hrest; [|discriminate].
    simpl in Hm. injection Hm as <-.
    destruct (IH _ _ _ Hv) as (v' & n1 & Hcopy & Hread & Hfresh & Hnew).
    destruct (IHitems (h ++ n1) ts' (read_items_extend _ _ _ _ _ Hrest))
      as (items' & n2 & Hcopies & Hreads & Hfreshs & Hnews).
    assert (Hle : (length h <= length (h ++ n1))%nat) by (rewrite length_app; lia).
    exists (v' :: items'), (n1 ++ n2). simpl. rewrite bind_run, Hcopy, bind_run, Hcopies.
    rewrite app_assoc. repeat split.
    + simpl. rewrite (read_tree_extend _ _ _ _ Hread fuel n2 (Nat.le_refl _)). simpl.
      rewrite Hreads. reflexivity.
    + constructor; [exact Hfresh | exact (vals_fresh_mono _ _ _ Hle Hfreshs)].
    + apply Forall_app. split; [exact Hnew | exact (objs_fresh_mono _ _ _ Hle Hnews)].
Qed.

Lemma copy_fields fuel :
  (forall h v t, read_tree fuel h v = Some t -> copied fuel h v t) ->
  forall (fields : list (string * val)) h ts,
    mapM (fun kv => t ← read_tree fuel h kv.2; Some (kv.1, t)) fields = Some ts ->
    exists fields' new,
      map_each (fun kv => v' ← deepcopy fuel kv.2; mret (kv.1, v')) fields h
      = (Ok fields', h ++ new) /\
      mapM (fun kv => t ← read_tree fuel (h ++ new) kv.2; Some (kv.1, t)) fields' = Some ts /\
      Forall (val_fresh (length h)) fields'.*2 /\
      objs_fresh (length h) new.
Proof.
  intros IH. induction fields as [|[k v] fields IHfields]; intros h ts Hm.
  - injection Hm as <-. exists [], []. rewrite app_nil_r.
    repeat split; constructor.
  - simpl in Hm. destruct (read_tree fuel h v) as [t|] eqn:Hv; [|discriminate].
    simpl in Hm.
    destruct (mapM (fun kv => t ← read_tree fuel h kv.2; Some (kv.1, t)) fields)
      as [ts'|] eqn:Hrest; [|discriminate].
    simpl in Hm. injection Hm as <-.
    destruct (IH _ _ _ Hv) as (v' & n1 & Hcopy & Hread & Hfresh & Hnew).
    destruct (IHfields (h ++ n1) ts' (read_fields_extend _ _ _ _ _ Hrest))
      as (fields' & n2 & Hcopies & Hreads & Hfreshs & Hnews).
    assert (Hle : (length h <= length (h ++ n1))%nat) by (rewrite length_app; lia).
    exists ((k, v') :: fields'), (n1 ++ n2). simpl.
    rewrite bind_run, bind_run, Hcopy. simpl. rewrite bind_run, Hcopies.
    rewrite app_assoc. repeat split.
    + simpl. rewrite (read_tree_extend _ _ _ _ Hread fuel n2 (Nat.le_refl _)). simpl.
      rewrite Hreads. reflexivity.
    + constructor; [exact Hfresh | exact (vals_fresh_mono _ _ _ Hle Hfreshs)].
    + apply Forall_app. split; [exact Hnew | exact (objs_fresh_mono _ _ _ Hle Hnews)].
Qed.

Lemma lookup_snoc (h : heap) (o : obj) : (h ++ [o]) !! length h = Some o.
Proof. apply list_lookup_middle. reflexivity. Qed.

Lemma deepcopy_correct fuel : forall h v t,
  read_tree fuel h v = Some t -> copied fuel h v t.
Proof.
  induction fuel as [|fuel IH]; intros h v t Hread.
  - destruct v as [s|l]; [|discriminate].
    exists (Scalar s), []. rewrite app_nil_r. repeat split; [exact Hread | constructor].
  - destruct v as [s|l].
    { exists (Scalar s), []. rewrite app_nil_r. repeat split; [exact Hread | constructor]. }
    simpl in Hread. unfold copied. simpl. rewrite bind_run. unfold gets.
    destruct (h !! l) as [[immutable fields|items]|] eqn:Hl; [| |discriminate].
    + destruct (mapM _ fields) as [ts|] eqn:Hm; [|discriminate].
      simpl in Hread. injection Hread as <-.
      destruct (copy_fields fuel IH fields h ts Hm) as (fields' & new & Hcopy & Hreads & Hfr & Hnew).
      rewrite bind_run, Hcopy. unfold alloc.
      exists (Ref (length (h ++ new))), (new ++ [CfgNode immutable fields']).
      rewrite app_assoc. repeat split.
      * simpl. rewrite lookup_snoc.
        rewrite (read_fields_extend _ _ _ _ _ Hreads). reflexivity.
      * simpl. rewrite length_app. lia.
      * apply Forall_app. split; [exact Hnew|]. constructor; [exact Hfr | constructor].
    + destruct (mapM _ items) as [ts|] eqn:Hm; [|discriminate].
      simpl in Hread. injection Hread as <-.
      destruct (copy_items fuel IH items h ts Hm) as (items' & new & Hcopy & Hreads & Hfr & Hnew).
      rewrite bind_run, Hcopy. unfold alloc.
      exists (Ref (length (h ++ new))), (new ++ [PyList items']).
      rewrite app_assoc. repeat split.
      * simpl. rewrite lookup_snoc.
        rewrite (read_items_extend _ _ _ _ _ Hreads). reflexivity.
      * simpl. rewrite length_app. lia.
      * apply Forall_app. split; [exact Hnew|]. constructor; [exact Hfr | constructor].
Qed.

(** *** What a client can do to a config it holds

    A client reaches an object by attribute access from a config it was
    given, and changes it in place.  The values it stores are values it
    makes itself: numbers, strings, new lists. *)

Inductive literal : Type :=
| LScalar (s : scalar)
| LList (items : list scalar).

Inductive mutation : Type :=
| SetAttr (path : list string) (name : string) (v : literal)
| SetKey (path : list string) (name : string) (v : literal)
| DelKey (path : list string) (name : string)
| SetImmutable (path : list string) (flag : bool)
| SetItem (path : list string) (i : nat) (s : scalar)
| Append (path : list string) (s : scalar).

(** [root.a.b...] *)
Fixpoint resolve (h : heap) (v : val) (path : list string) : option val :=
  match path with
  | [] => Some v
  | name :: rest =>
      match v with
      | Ref l =>
          match h !! l with
          | Some (CfgNode _ fields) =>
              match dict_get name fields with
              | Some v' => resolve h v' rest
              | None => None
              end
          | _ => None
          end
      | Scalar _ => None
      end
  end.

Definition getpath (root : val) (path : list string) : M heap val := fun h =>
  match resolve h root path with
  | Some v => (Ok v, h)
  | None => (Raise AttributeError, h)
  end.

Definition make (v : literal) : M heap val :=
  match v with
  | LScalar s => mret (Scalar s)
  | LList items => new_list items
  end.

(** Replaces the object a reference points to by [f] of it. *)
Definition update (target : val) (f : obj -> outcome obj) : M heap unit := fun h =>
  match target with
  | Ref l =>
      match h !! l with
      | Some o =>
          match f o with
          | Ok o' => (Ok tt, <[l := o']> h)
          | Raise e => (Raise e, h)
          end
      | None => (Raise ValueError, h)
      end
  | Scalar _ => (Raise TypeError, h)
  end.

Definition mutate (root : val) (m : mutation) : M heap unit :=
  match m with
  | SetAttr path name v =>
      v' ← make v; target ← getpath root path; setattr target name v'
  | SetKey path name v =>
      v' ← make v; target ← getpath root path;
      update target (fun o =>
        match o with
        | CfgNode immutable fields => Ok (CfgNode immutable (dict_set name v' fields))
        | PyList _ => Raise TypeError
        end)
  | DelKey path name =>
      target ← getpath root path;
      update target (fun o =>
        match o with
        | CfgNode immutable fields => Ok (CfgNode immutable (dict_del name fields))
        | PyList _ => Raise TypeError
        end)
  | SetImmutable path flag =>
      target ← getpath root path;
      update target (fun o =>
        match o with
        | CfgNode _ fields => Ok (CfgNode flag fields)
        | PyList _ => Raise AttributeError
        end)
  | SetItem path i s =>
      target ← getpath root path;
      update target (fun o =>
        match o with
        | PyList items =>
            if (i <? length items)%nat then Ok (PyList (<[i := Scalar s]> items))
            else Raise IndexError
        | CfgNode _ _ => Raise TypeError
        end)
  | Append path s =>
      target ← getpath root path;
      update target (fun o =>
        match o with
        | PyList items => Ok (PyList (items ++ [Scalar s]))
        | CfgNode _ _ => Raise AttributeError
        end)
  end.

(** A client: it asks for a config ([Get], which it then holds), changes
    one of the configs it holds, or stores in a config it holds an object it
    reaches from a config it holds, the same one or another
    ([a.model = b.model], after which the two share the object), in any
    order; an exception is caught and the client goes on. *)
Inductive step : Type :=
| Get
| Mutate (i : nat) (m : mutation)
| Share (i : nat) (path : list string) (name : string) (j : nat) (source : list string).

Definition client_step (st : list val * heap) (s : step) : list val * heap :=
  let '(held, h) := st in
  match s with
  | Get =>
      match get_cfg_defaults h with
      | (Ok c, h') => (held ++ [c], h')
      | (Raise _, h') => (held, h')
      end
  | Mutate i m =>
      match held !! i with
      | Some c => (held, (mutate c m h).2)
      | None => (held, h)
      end
  | Share i path name j source =>
      match held !! i, held !! j with
      | Some a, Some b =>
          (held,
           ((v ← getpath b source; target ← getpath a path; setattr target name v) h).2)
      | _, _ => (held, h)
      end
  end.

Definition client (steps : list step) : list val * heap :=
  fold_left client_step steps ([], module_heap).

(** *** The objects of the module are out of a client's reach

    [kept h]: the heap still begins with the objects of the module as the
    import left them, and no object after them points at one of them. *)

Definition base : nat := length module_heap.

Definition kept (h : heap) : Prop :=
  exists ext, h = module_heap ++ ext /\ objs_fresh base ext.

Lemma kept_module : kept module_heap.
Proof. exists []. split; [symmetry; apply app_nil_r | constructor]. Qed.

Lemma kept_lookup h l o :
  kept h -> (base <= l)%nat -> h !! l = Some o -> Forall (val_fresh base) (obj_vals o).
Proof.
  intros (ext & -> & Hext) Hl Hlook.
  rewrite lookup_app_r in Hlook by exact Hl.
  unfold objs_fresh in Hext. rewrite Forall_lookup in Hext. exact (Hext _ _ Hlook).
Qed.

Lemma kept_store h l o :
  kept h -> (base <= l)%nat -> Forall (val_fresh base) (obj_vals o) -> kept (<[l := o]> h).
Proof.
  intros (ext & -> & Hext) Hl Ho. exists (<[(l - base)%nat := o]> ext). split.
  - apply insert_app_r_alt. exact Hl.
  - apply Forall_insert; assumption.
Qed.

Lemma kept_alloc h o :
  kept h -> Forall (val_fresh base) (obj_vals o) -> kept (h ++ [o]).
Proof.
  intros (ext & -> & Hext) Ho. exists (ext ++ [o]). split.
  - symmetry. apply app_assoc.
  - apply Forall_app. split; [exact Hext | constructor; [exact Ho | constructor]].
Qed.

Lemma kept_length h : kept h -> (base <= length h)%nat.
Proof. intros (ext & -> & _). rewrite length_app. unfold base. lia. Qed.

Lemma dict_get_fresh n name (fields : list (string * val)) v :
  Forall (val_fresh n) fields.*2 -> dict_get name fields = Some v -> val_fresh n v.
Proof.
  induction fields as [|[k w] fields IH]; simpl; [discriminate|].
  intros Hall Hget. apply Forall_cons in Hall. destruct Hall as [Hw Hall].
  destruct (String.eqb name k); [injection Hget as <-; exact Hw | exact (IH Hall Hget)].
Qed.

Lemma dict_set_fresh n name v (fields : list (string * val)) :
  Forall (val_fresh n) fields.*2 -> val_fresh n v ->
  Forall (val_fresh n) (dict_set name v fields).*2.
Proof.
  intros Hall Hv. induction fields as [|[k w] fields IH]; simpl.
  - constructor; [exact Hv | constructor].
  - apply Forall_cons in Hall. destruct Hall as [Hw Hall].
    destruct (String.eqb name k); simpl; constructor; auto.
Qed.

Lemma dict_del_fresh n name (fields : list (string * val)) :
  Forall (val_fresh n) fields.*2 -> Forall (val_fresh n) (dict_del name fields).*2.
Proof.
  intros Hall. induction fields as [|[k w] fields IH]; simpl; [constructor|].
  apply Forall_cons in Hall. destruct Hall as [Hw Hall].
  destruct (String.eqb name k); simpl; [exact Hall | constructor; auto].
Qed.

Lemma resolve_fresh h path : forall root v,
  kept h -> val_fresh base root -> resolve h root path = Some v -> val_fresh base v.
Proof.
  induction path as [|name rest IH]; intros root v Hk Hroot Hres; simpl in Hres.
  - injection Hres as <-. exact Hroot.
  - destruct root as [s|l]; [discriminate|].
    destruct (h !! l) as [[immutable fields|items]|] eqn:Hl; try discriminate.
    destruct (dict_get name fields) as [v'|] eqn:Hget; [|discriminate].
    apply (IH v' v Hk); [|exact Hres].
    eapply dict_get_fresh; [|exact Hget].
    exact (kept_lookup _ _ _ Hk Hroot Hl).
Qed.

Lemma update_kept target f h :
  kept h -> val_fresh base target ->
  (forall o o', Forall (val_fresh base) (obj_vals o) -> f o = Ok o' ->
                Forall (val_fresh base) (obj_vals o')) ->
  kept (update target f h).2.
Proof.
  intros Hk Ht Hf. unfold update. destruct target as [s|l]; [exact Hk|].
  destruct (h !! l) as [o|] eqn:Hl; [|exact Hk].
  destruct (f o) as [o'|e] eqn:Hfo; [|exact Hk]. simpl.
  apply kept_store; [exact Hk | exact Ht|].
  exact (Hf _ _ (kept_lookup _ _ _ Hk Ht Hl) Hfo).
Qed.

Lemma setattr_kept target name v h :
  kept h -> val_fresh base target -> val_fresh base v ->
  kept (setattr target name v h).2.
Proof.
  intros Hk Ht Hv. unfold setattr. destruct target as [s|l]; [exact Hk|].
  destruct (h !! l) as [[immutable fields|items]|] eqn:Hl; try exact Hk.
  destruct immutable; [exact Hk|]. simpl.
  apply kept_store; [exact Hk | exact Ht|]. simpl.
  apply dict_set_fresh; [|exact Hv]. exact (kept_lookup _ _ _ Hk Ht Hl).
Qed.

Lemma make_kept v h :
  kept h ->
  exists v', make v h = (Ok v', (make v h).2) /\ val_fresh base v' /\ kept (make v h).2.
Proof.
  intros Hk. destruct v as [s|items]; simpl.
  - exists (Scalar s). repeat split. exact Hk.
  - exists (Ref (length h)). repeat split.
    + simpl. apply kept_length, Hk.
    + apply kept_alloc; [exact Hk|]. simpl.
      apply Forall_forall. intros w Hw. apply list_elem_of_In, in_map_iff in Hw.
      destruct Hw as [s [<- _]]. exact I.
Qed.

Lemma getpath_kept root path h :
  kept h -> val_fresh base root ->
  (getpath root path h).2 = h /\
  forall v, (getpath root path h).1 = Ok v -> val_fresh base v.
Proof.
  intros Hk Hroot. unfold getpath.
  destruct (resolve h root path) as [v|] eqn:Hres; simpl.
  - split; [reflexivity|]. intros v' [= <-]. exact (resolve_fresh _ _ _ _ Hk Hroot Hres).
  - split; [reflexivity | discriminate].
Qed.

(** Runs the access to the target, then hands over to the update. *)
Ltac via_target Hk Hroot :=
  rewrite bind_run;
  match goal with
  | |- context [ getpath ?root ?path ?h ] =>
      let Hst := fresh "Hst" in
      let Hval := fresh "Hval" in
      destruct (getpath_kept root path h Hk Hroot) as [Hst Hval];
      destruct (getpath root path h) as [[target|e] h'];
      simpl in Hst; subst h'; [specialize (Hval target eq_refl) | exact Hk]
  end.

Lemma mutate_kept root m h :
  kept h -> val_fresh base root -> kept (mutate root m h).2.
Proof.
  intros Hk Hroot. destruct m as [path name v|path name v|path name|path flag|path i s|path s];
    unfold mutate.
  - rewrite bind_run. destruct (make_kept v h Hk) as (v' & -> & Hv & Hk').
    via_target Hk' Hroot. apply setattr_kept; assumption.
  - rewrite bind_run. destruct (make_kept v h Hk) as (v' & -> & Hv & Hk').
    via_target Hk' Hroot. apply update_kept; [assumption..|].
    intros [immutable fields|items] o' Ho [= <-]. simpl in *.
    apply dict_set_fresh; assumption.
  - via_target Hk Hroot. apply update_kept; [assumption..|].
    intros [immutable fields|items] o' Ho [= <-]. simpl in *.
    apply dict_del_fresh; assumption.
  - via_target Hk Hroot. apply update_kept; [assumption..|].
    intros [immutable fields|items] o' Ho [= <-]. exact Ho.
  - via_target Hk Hroot. apply update_kept; [assumption..|].
    intros [immutable fields|items] o' Ho; [discriminate|].
    destruct (i <? length items)%nat; [|discriminate]. intros [= <-]. simpl in *.
    apply Forall_insert; [exact Ho | exact I].
  - via_target Hk Hroot. apply update_kept; [assumption..|].
    intros [immutable fields|items] o' Ho [= <-]. simpl in *.
    apply Forall_app. split; [exact Ho | constructor; [exact I | constructor]].
Qed.

Lemma share_kept a path name b source h :
  kept h -> val_fresh base a -> val_fresh base b ->
  kept ((v ← getpath b source; target ← getpath a path; setattr target name v) h).2.
Proof.
  intros Hk Ha Hb. rewrite bind_run.
  destruct (getpath_kept b source h Hk Hb) as [Hst Hval].
  destruct (getpath b source h) as [[v|e] h']; simpl in Hst; subst h'; [|exact Hk].
  specialize (Hval v eq_refl).
  via_target Hk Ha. apply setattr_kept; assumption.
Qed.

Lemma module_reads_default : read_tree base module_heap _C = Some default_tree.
Proof. reflexivity. Qed.

(** On a heap whose module objects are kept, the factory succeeds, the copy
    is a new object, and both the copy and [_C] read as the defaults. *)
Lemma get_cfg_defaults_kept h :
  kept h ->
  exists l h',
    get_cfg_defaults h = (Ok (Ref l), h') /\
    (length h <= l)%nat /\
    kept h' /\
    config_value h' (Ref l) = Some default_tree /\
    config_value h' _C = Some default_tree.
Proof.
  intros Hk. pose proof (kept_length _ Hk) as Hlen.
  destruct Hk as (ext & -> & Hext).
  pose proof (read_tree_extend _ _ _ _ module_reads_default
                (length (module_heap ++ ext)) ext Hlen) as Hread.
  destruct (deepcopy_correct _ _ _ _ Hread) as (c & new & Hcopy & Hc & Hfresh & Hnew).
  assert (Hgrow : (length (module_heap ++ ext)
                   <= length ((module_heap ++ ext) ++ new))%nat)
    by (rewrite (length_app (module_heap ++ ext)); lia).
  destruct c as [s|l]; [discriminate|].
  exists l, ((module_heap ++ ext) ++ new).
  split; [exact Hcopy|]. split; [exact Hfresh|]. split; [|split].
  - exists (ext ++ new). split; [symmetry; apply app_assoc|].
    apply Forall_app. split; [exact Hext|].
    exact (objs_fresh_mono _ _ _ Hlen Hnew).
  - unfold config_value.
    pose proof (read_tree_extend _ _ _ _ Hc _ [] Hgrow) as H.
    rewrite app_nil_r in H. exact H.
  - unfold config_value.
    pose proof (read_tree_extend _ _ _ _ Hread _ new Hgrow) as H. exact H.
Qed.

Lemma client_kept steps :
  kept (client steps).2 /\ Forall (val_fresh base) (client steps).1.
Proof.
  unfold client.
  enough (H : forall st, kept st.2 /\ Forall (val_fresh base) st.1 ->
                kept (fold_left client_step steps st).2 /\
                Forall (val_fresh base) (fold_left client_step steps st).1).
  { apply H. simpl. split; [apply kept_module | constructor]. }
  induction steps as [|s steps IH]; intros [held h] [Hk Hheld]; simpl in *.
  - split; assumption.
  - apply IH. destruct s as [|i m|i path name j source]; simpl.
    + destruct (get_cfg_defaults_kept h Hk) as (l & h' & -> & Hl & Hk' & _). simpl.
      split; [exact Hk'|]. apply Forall_app. split; [exact Hheld|].
      constructor; [|constructor]. simpl. pose proof (kept_length _ Hk). lia.
    + destruct (held !! i) as [c|] eqn:Hi; simpl; [|split; assumption].
      split; [|exact Hheld]. apply mutate_kept; [exact Hk|].
      rewrite Forall_lookup in Hheld. exact (Hheld _ _ Hi).
    + destruct (held !! i) as [a|] eqn:Hi; simpl; [|split; assumption].
      destruct (held !! j) as [b|] eqn:Hj; simpl; [|split; assumption].
      split; [|exact Hheld]. rewrite Forall_lookup in Hheld.
      apply share_kept; [exact Hk | exact (Hheld _ _ Hi) | exact (Hheld _ _ Hj)].
Qed.

(** C9.  Every call of [get_cfg_defaults] returns a fresh, independent copy
    of the default tree: whatever configs a client has asked for before and
    whatever it has done to them (assigning or deleting keys, changing or
    growing lists, freezing), the call succeeds, returns an object that did
    not exist before the call, and this object reads as the defaults the
    module wrote; the module's own [_C] reads the same. *)
Theorem get_cfg_defaults_fresh_copy (steps : list step) :
  exists l h',
    get_cfg_defaults (client steps).2 = (Ok (Ref l), h') /\
    (length (client steps).2 <= l)%nat /\
    Ref l <> _C /\
    config_value h' (Ref l) = Some default_tree /\
    config_value h' _C = Some default_tree.
Proof.
  destruct (client_kept steps) as [Hk _].
  destruct (get_cfg_defaults_kept _ Hk) as (l & h' & Hget & Hl & _ & Hcopy & Hglobal).
  exists l, h'. split; [exact Hget|]. split; [exact Hl|]. split; [|split; assumption].
  pose proof (kept_length _ Hk) as Hlen. unfold base in Hlen.
  intros Heq. change _C with (Ref 0%nat) in Heq. injection Heq as ->.
  change (length module_heap) with 6%nat in Hlen. lia.
Qed.

(** A client that takes a config, sets the batch size to 16, grows a list
    and freezes the root: its copy reads differently from the defaults. *)
Example mutation_changes_the_copy :
  let st := client [Get;
                    Mutate 0 (SetAttr ["data"] "batch_size" (LScalar (SInt 16)));
                    Mutate 0 (Append ["model"; "upsample_factors"] (SInt 4));
                    Mutate 0 (SetImmutable [] true)] in
  exists c,
    st.1 = [c] /\
    resolve st.2 c ["data"; "batch_size"] = Some (Scalar (SInt 16)) /\
    (c' ← resolve st.2 c ["model"; "upsample_factors"]; config_value st.2 c')
    = Some (TList [TScalar (SInt 16); TScalar (SInt 16); TScalar (SInt 4)]) /\
    resolve st.2 _C ["data"; "batch_size"] = Some (Scalar (SInt 8)) /\
    config_value st.2 _C = Some default_tree.
Proof. eexists. repeat split; vm_compute; reflexivity. Qed.

(** *** A copy shares no object with what was there before *)

(** [closed_above n h]: no object at or above location [n] points below
    [n]. *)
Definition closed_above (n : nat) (h : heap) : Prop :=
  forall l o, (n <= l)%nat -> h !! l = Some o -> Forall (val_fresh n) (obj_vals o).

Lemma closed_above_app (h new : heap) :
  objs_fresh (length h) new -> closed_above (length h) (h ++ new).
Proof.
  intros Hnew l o Hl Hlook. rewrite lookup_app_r in Hlook by exact Hl.
  unfold objs_fresh in Hnew. rewrite Forall_lookup in Hnew. exact (Hnew _ _ Hlook).
Qed.

Lemma resolve_closed n h path : forall root v,
  closed_above n h -> val_fresh n root -> resolve h root path = Some v -> val_fresh n v.
Proof.
  induction path as [|name rest IH]; intros root v Hc Hroot Hres; simpl in Hres.
  - injection Hres as <-. exact Hroot.
  - destruct root as [s|l]; [discriminate|].
    destruct (h !! l) as [[immutable fields|items]|] eqn:Hl; try discriminate.
    destruct (dict_get name fields) as [v'|] eqn:Hget; [|discriminate].
    apply (IH v' v Hc); [|exact Hres].
    eapply dict_get_fresh; [|exact Hget]. exact (Hc _ _ Hroot Hl).
Qed.

Lemma get_cfg_defaults_new h :
  kept h ->
  exists l new,
    get_cfg_defaults h = (Ok (Ref l), h ++ new) /\
    (length h <= l)%nat /\
    objs_fresh (length h) new.
Proof.
  intros Hk. pose proof (kept_length _ Hk) as Hlen.
  destruct Hk as (ext & -> & Hext).
  pose proof (read_tree_extend _ _ _ _ module_reads_default
                (length (module_heap ++ ext)) ext Hlen) as Hread.
  destruct (deepcopy_correct _ _ _ _ Hread) as (c & new & Hcopy & Hc & Hfresh & Hnew).
  destruct c as [s|l]; [discriminate|].
  exists l, new. split; [exact Hcopy|]. split; [exact Hfresh | exact Hnew].
Qed.

(** The config a call returns is built from new objects only, nested nodes
    and lists included: the call leaves every object that existed as it
    was, and whatever attribute path is followed from the returned config
    leads to a number, a string, or an object created by this call. *)
Theorem copy_shares_no_object (steps : list step) :
  exists l new,
    get_cfg_defaults (client steps).2 = (Ok (Ref l), (client steps).2 ++ new) /\
    forall path v,
      resolve ((client steps).2 ++ new) (Ref l) path = Some v ->
      val_fresh (length (client steps).2) v.
Proof.
  destruct (client_kept steps) as [Hk _].
  destruct (get_cfg_defaults_new _ Hk) as (l & new & Hget & Hl & Hnew).
  exists l, new. split; [exact Hget|].
  intros path v Hres.
  exact (resolve_closed _ _ path (Ref l) v (closed_above_app _ _ Hnew) Hl Hres).
Qed.

(** *** Configs handed out by different calls share no object, until the
    client makes them

    As long as the client stores in a config only what it makes itself or
    what it reaches from that same config, every object belongs to the
    module (owner 0) or to one of the configs the client holds (owner [S j]
    for the [j]-th), and an object only points at objects of its own
    owner. *)

(** A value that, if it is a reference, points into a heap of [n] objects
    at an object of owner [k]. *)
Definition val_in (own : loc -> nat) (k n : nat) (v : val) : Prop :=
  match v with
  | Ref r => (r < n)%nat /\ own r = k
  | Scalar _ => True
  end.

Definition owned (own : loc -> nat) (h : heap) : Prop :=
  forall l o, h !! l = Some o -> Forall (val_in own (own l) (length h)) (obj_vals o).

Definition separate (own : loc -> nat) (held : list val) (h : heap) : Prop :=
  owned own h /\ forall j c, held !! j = Some c -> val_in own (S j) (length h) c.

(** A value that, if it is a reference, points at a location from [a] up to
    [b]. *)
Definition val_new (a b : nat) (v : val) : Prop :=
  match v with
  | Ref r => (a <= r < b)%nat
  | Scalar _ => True
  end.

(** [adds h h' vs]: [h'] is [h] with more objects at its end; the values
    [vs] and the values of the new objects point at new objects only. *)
Definition adds (h h' : heap) (vs : list val) : Prop :=
  exists new,
    h' = h ++ new /\
    Forall (val_new (length h) (length h')) vs /\
    Forall (fun o => Forall (val_new (length h) (length h')) (obj_vals o)) new.

(** A step that does not write to the [j]-th config. *)
Definition spares (j : nat) (s : step) : Prop :=
  match s with
  | Get => True
  | Mutate i _ => i <> j
  | Share i _ _ _ _ => i <> j
  end.

(** A step that does not store in one config an object of another. *)
Definition apart (s : step) : Prop :=
  match s with
  | Share i _ _ j _ => i = j
  | _ => True
  end.

Lemma val_new_weaken a b a' b' v :
  (a' <= a)%nat -> (b <= b')%nat -> val_new a b v -> val_new a' b' v.
Proof. destruct v; simpl; lia. Qed.

Lemma vals_new_weaken a b a' b' vs :
  (a' <= a)%nat -> (b <= b')%nat ->
  Forall (val_new a b) vs -> Forall (val_new a' b') vs.
Proof.
  intros Ha Hb H. eapply Forall_impl; [exact H|].
  intros v. apply val_new_weaken; assumption.
Qed.

Lemma adds_nil h : adds h h [].
Proof. exists []. split; [symmetry; apply app_nil_r|]. split; constructor. Qed.

Lemma adds_scalar h s : adds h h [Scalar s].
Proof.
  exists []. split; [symmetry; apply app_nil_r|].
  split; constructor; [exact I | constructor].
Qed.

Lemma adds_cons h h1 h2 v vs :
  adds h h1 [v] -> adds h1 h2 vs -> adds h h2 (v :: vs).
Proof.
  intros (n1 & -> & Hv & Hn1) (n2 & -> & Hvs & Hn2).
  exists (n1 ++ n2). split; [symmetry; apply app_assoc|].
  assert (H1 : (length h <= length (h ++ n1))%nat) by (rewrite length_app; lia).
  assert (H2 : (length (h ++ n1) <= length ((h ++ n1) ++ n2))%nat)
    by (rewrite (length_app (h ++ n1)); lia).
  split.
  - constructor.
    + apply Forall_cons in Hv. destruct Hv as [Hv _].
      exact (val_new_weaken _ _ _ _ _ (Nat.le_refl _) H2 Hv).
    + exact (vals_new_weaken _ _ _ _ _ H1 (Nat.le_refl _) Hvs).
  - apply Forall_app. split.
    + eapply Forall_impl; [exact Hn1|]. intros o.
      apply vals_new_weaken; [apply Nat.le_refl | exact H2].
    + eapply Forall_impl; [exact Hn2|]. intros o.
      apply vals_new_weaken; [exact H1 | apply Nat.le_refl].
Qed.

Lemma adds_alloc h h1 o :
  adds h h1 (obj_vals o) -> adds h (h1 ++ [o]) [Ref (length h1)].
Proof.
  intros (n1 & -> & Hvs & Hn1).
  exists (n1 ++ [o]). split; [symmetry; apply app_assoc|].
  assert (H1 : (length (h ++ n1) <= length ((h ++ n1) ++ [o]))%nat)
    by (rewrite (length_app (h ++ n1)); lia).
  split.
  - constructor; [|constructor]. simpl.
    rewrite (length_app (h ++ n1)), length_app. simpl. lia.
  - apply Forall_app. split.
    + eapply Forall_impl; [exact Hn1|]. intros o'.
      apply vals_new_weaken; [apply Nat.le_refl | exact H1].
    + constructor; [|constructor].
      exact (vals_new_weaken _ _ _ _ _ (Nat.le_refl _) H1 Hvs).
Qed.

Lemma copy_items_adds fuel :
  (forall v h v' h', deepcopy fuel v h = (Ok v', h') -> adds h h' [v']) ->
  forall items h items' h',
    map_each (deepcopy fuel) items h = (Ok items', h') -> adds h h' items'.
Proof.
  intros IH. induction items as [|v items IHitems]; intros h items' h' Hrun.
  - injection Hrun as <- <-. apply adds_nil.
  - simpl in Hrun. rewrite bind_run in Hrun.
    destruct (deepcopy fuel v h) as [[v'|e] h1] eqn:Hv; [|discriminate].
    rewrite bind_run in Hrun.
    destruct (map_each (deepcopy fuel) items h1) as [[vs|e] h2] eqn:Hrest; [|discriminate].
    injection Hrun as <- <-.
    exact (adds_cons _ _ _ _ _ (IH _ _ _ _ Hv) (IHitems _ _ _ Hrest)).
Qed.

Lemma copy_fields_adds fuel :
  (forall v h v' h', deepcopy fuel v h = (Ok v', h') -> adds h h' [v']) ->
  forall (fields : list (string * val)) h fields' h',
    map_each (fun kv => v' ← deepcopy fuel kv.2; mret (kv.1, v')) fields h
    = (Ok fields', h') ->
    adds h h' fields'.*2.
Proof.
  intros IH. induction fields as [|[k v] fields IHfields]; intros h fields' h' Hrun.
  - injection Hrun as <- <-. apply adds_nil.
  - simpl in Hrun. rewrite bind_run, bind_run in Hrun.
    destruct (deepcopy fuel v h) as [[v'|e] h1] eqn:Hv; [|discriminate].
    simpl in Hrun. rewrite bind_run in Hrun.
    destruct (map_each _ fields h1) as [[vs|e] h2] eqn:Hrest; [|discriminate].
    injection Hrun as <- <-.
    exact (adds_cons _ _ _ _ _ (IH _ _ _ _ Hv) (IHfields _ _ _ Hrest)).
Qed.

(** Whenever a copy succeeds, the heap has only grown, and the copy and the
    new objects point at new objects only. *)
Lemma deepcopy_adds fuel : forall v h v' h',
  deepcopy fuel v h = (Ok v', h') -> adds h h' [v'].
Proof.
  induction fuel as [|fuel IH]; intros v h v' h' Hrun.
  - destruct v as [s|l]; [|discriminate]. injection Hrun as <- <-. apply adds_scalar.
  - destruct v as [s|l]; [injection Hrun as <- <-; apply adds_scalar|].
    simpl in Hrun. rewrite bind_run in Hrun. unfold gets in Hrun.
    destruct (h !! l) as [[immutable fields|items]|] eqn:Hl; [| |discriminate].
    + rewrite bind_run in Hrun.
      destruct (map_each _ fields h) as [[fields'|e] h1] eqn:Hcopy; [|discriminate].
      unfold alloc in Hrun. injection Hrun as <- <-.
      apply (adds_alloc h h1 (CfgNode immutable fields')).
      exact (copy_fields_adds fuel IH _ _ _ _ Hcopy).
    + rewrite bind_run in Hrun.
      destruct (map_each _ items h) as [[items'|e] h1] eqn:Hcopy; [|discriminate].
      unfold alloc in Hrun. injection Hrun as <- <-.
      apply (adds_alloc h h1 (PyList items')).
      exact (copy_items_adds fuel IH _ _ _ _ Hcopy).
Qed.

Lemma dict_get_Forall (P : val -> Prop) name (fields : list (string * val)) v :
  Forall P fields.*2 -> dict_get name fields = Some v -> P v.
Proof.
  induction fields as [|[k w] fields IH]; simpl; [discriminate|].
  intros Hall Hget. apply Forall_cons in Hall. destruct Hall as [Hw Hall].
  destruct (String.eqb name k); [injection Hget as <-; exact Hw | exact (IH Hall Hget)].
Qed.

Lemma dict_set_Forall (P : val -> Prop) name v (fields : list (string * val)) :
  Forall P fields.*2 -> P v -> Forall P (dict_set name v fields).*2.
Proof.
  intros Hall Hv. induction fields as [|[k w] fields IH]; simpl.
  - constructor; [exact Hv | constructor].
  - apply Forall_cons in Hall. destruct Hall as [Hw Hall].
    destruct (String.eqb name k); simpl; constructor; auto.
Qed.

Lemma dict_del_Forall (P : val -> Prop) name (fields : list (string * val)) :
  Forall P fields.*2 -> Forall P (dict_del name fields).*2.
Proof.
  intros Hall. induction fields as [|[k w] fields IH]; simpl; [constructor|].
  apply Forall_cons in Hall. destruct Hall as [Hw Hall].
  destruct (String.eqb name k); simpl; [exact Hall | constructor; auto].
Qed.

Lemma resolve_owned own k h path : forall root v,
  owned own h -> val_in own k (length h) root -> resolve h root path = Some v ->
  val_in own k (length h) v.
Proof.
  induction path as [|name rest IH]; intros root v Ho Hroot Hres; simpl in Hres.
  - injection Hres as <-. exact Hroot.
  - destruct root as [s|l]; [discriminate|].
    destruct (h !! l) as [[immutable fields|items]|] eqn:Hl; try discriminate.
    destruct (dict_get name fields) as [v'|] eqn:Hget; [|discriminate].
    apply (IH v' v Ho); [|exact Hres].
    destruct Hroot as [_ Hk]. pose proof (Ho _ _ Hl) as Hvals. rewrite Hk in Hvals.
    exact (dict_get_Forall _ _ _ _ Hvals Hget).
Qed.

(** Reading a value of owner [k] gives the same in two heaps that agree on
    the objects of owner [k]. *)
Lemma read_tree_agree own k (h h' : heap) :
  owned own h ->
  (forall l : loc, (l < length h)%nat -> own l = k -> h' !! l = h !! l) ->
  forall fuel v, val_in own k (length h) v -> read_tree fuel h' v = read_tree fuel h v.
Proof.
  intros Ho Hsame. induction fuel as [|fuel IH]; intros v Hv.
  - destruct v; reflexivity.
  - destruct v as [s|l]; [reflexivity|]. cbn [read_tree]. destruct Hv as [Hl Hk].
    rewrite (Hsame _ Hl Hk).
    destruct (h !! l) as [[immutable fields|items]|] eqn:Hlook; [| |reflexivity].
    + pose proof (Ho _ _ Hlook) as Hvals. rewrite Hk in Hvals. simpl in Hvals.
      f_equal. apply Forall_mapM_ext.
      rewrite Forall_fmap in Hvals. eapply Forall_impl; [exact Hvals|].
      intros kv Hkv. simpl in Hkv. rewrite (IH _ Hkv). reflexivity.
    + pose proof (Ho _ _ Hlook) as Hvals. rewrite Hk in Hvals. simpl in Hvals.
      f_equal. apply Forall_mapM_ext.
      eapply Forall_impl; [exact Hvals|]. intros w Hw. exact (IH _ Hw).
Qed.

(** The state an assignment leaves is the state of an update of the node. *)
Lemma setattr_update target name v h :
  (setattr target name v h).2
  = (update target (fun o =>
       match o with
       | CfgNode immutable fields =>
           if immutable then Raise AttributeError
           else Ok (CfgNode immutable (dict_set name v fields))
       | PyList _ => Raise AttributeError
       end) h).2.
Proof.
  unfold setattr, update. destruct target as [s|l]; [reflexivity|].
  destruct (h !! l) as [[[|] fields|items]|]; reflexivity.
Qed.

(** An update of an object of owner [k] that stores values of owner [k]
    keeps the owners apart and changes no object of another owner. *)
Lemma update_owned own k target f h :
  owned own h -> val_in own k (length h) target ->
  (forall o o', Forall (val_in own k (length h)) (obj_vals o) -> f o = Ok o' ->
                Forall (val_in own k (length h)) (obj_vals o')) ->
  owned own (update target f h).2 /\
  length (update target f h).2 = length h /\
  forall l, own l <> k -> (update target f h).2 !! l = h !! l.
Proof.
  intros Ho Ht Hf. unfold update. destruct target as [s|l0]; [auto|].
  destruct (h !! l0) as [o|] eqn:Hl0; [|auto].
  destruct (f o) as [o'|e] eqn:Hfo; [|auto]. simpl.
  destruct Ht as [Hlt Hk].
  pose proof (Ho _ _ Hl0) as Hvals. rewrite Hk in Hvals.
  pose proof (Hf _ _ Hvals Hfo) as Hvals'.
  split; [|split].
  - intros l o1 Hlook. rewrite length_insert.
    destruct (decide (l = l0)) as [->|Hne].
    + rewrite list_lookup_insert_eq in Hlook by exact Hlt.
      injection Hlook as <-. rewrite Hk. exact Hvals'.
    + rewrite list_lookup_insert_ne in Hlook by congruence. exact (Ho _ _ Hlook).
  - apply length_insert.
  - intros l Hl. apply list_lookup_insert_ne. congruence.
Qed.

Lemma target_update_owned own k root path f h :
  owned own h -> val_in own k (length h) root ->
  (forall o o', Forall (val_in own k (length h)) (obj_vals o) -> f o = Ok o' ->
                Forall (val_in own k (length h)) (obj_vals o')) ->
  owned own ((target ← getpath root path; update target f) h).2 /\
  length ((target ← getpath root path; update target f) h).2 = length h /\
  forall l, own l <> k ->
            ((target ← getpath root path; update target f) h).2 !! l = h !! l.
Proof.
  intros Ho Hroot Hf. rewrite bind_run. unfold getpath.
  destruct (resolve h root path) as [target|] eqn:Hres; [|auto].
  apply update_owned; [exact Ho| |exact Hf].
  exact (resolve_owned _ _ _ _ _ _ Ho Hroot Hres).
Qed.

(** A value the client makes belongs to the config it is made for. *)
Lemma make_owned own k v h :
  owned own h ->
  exists own' v' h1,
    make v h = (Ok v', h1) /\
    owned own' h1 /\
    val_in own' k (length h1) v' /\
    (length h <= length h1)%nat /\
    (forall l, (l < length h)%nat -> own' l = own l) /\
    (forall l, (l < length h)%nat -> h1 !! l = h !! l).
Proof.
  intros Ho. destruct v as [s|items]; simpl.
  - exists own, (Scalar s), h. repeat split; auto.
  - exists (fun l => if decide (l = length h) then k else own l), (Ref (length h)),
           (h ++ [PyList (map Scalar items)]).
    split; [reflexivity|]. split; [|split; [|split; [|split]]].
    + intros l o Hlook. rewrite length_app. simpl.
      destruct (decide (l = length h)) as [->|Hne].
      * rewrite lookup_snoc in Hlook. injection Hlook as <-. simpl.
        apply Forall_forall. intros w Hw. apply list_elem_of_In, in_map_iff in Hw.
        destruct Hw as [s [<- _]]. exact I.
      * assert (Hlt : (l < length h)%nat).
        { apply lookup_lt_Some in Hlook. rewrite length_app in Hlook. simpl in Hlook. lia. }
        rewrite lookup_app_l in Hlook by exact Hlt.
        eapply Forall_impl; [exact (Ho _ _ Hlook)|].
        intros [s|r]; simpl; [auto|]. intros [Hr Hown].
        repeat case_decide; lia.
    + simpl. rewrite length_app. simpl. split; [lia|].
      destruct (decide (length h = length h)); congruence.
    + rewrite length_app. lia.
    + intros l Hl. destruct (decide (l = length h)); [lia | reflexivity].
    + intros l Hl. apply lookup_app_l. exact Hl.
Qed.

Lemma val_in_grow own own' k n n' v :
  (n <= n')%nat -> (forall l, (l < n)%nat -> own' l = own l) ->
  val_in own k n v -> val_in own' k n' v.
Proof.
  intros Hle Hown. destruct v as [s|r]; simpl; [auto|].
  intros [Hr Hk]. split; [lia|]. rewrite (Hown _ Hr). exact Hk.
Qed.

(** A change made through a config of owner [k] keeps the owners apart and
    leaves every object of another owner as it was. *)
Lemma mutate_owned own k root m h :
  owned own h -> val_in own k (length h) root ->
  exists own',
    owned own' (mutate root m h).2 /\
    (length h <= length (mutate root m h).2)%nat /\
    (forall l, (l < length h)%nat -> own' l = own l) /\
    (forall l, (l < length h)%nat -> own l <> k -> (mutate root m h).2 !! l = h !! l).
Proof.
  intros Ho Hroot.
  assert (Hplain : forall path f,
    (forall o o', Forall (val_in own k (length h)) (obj_vals o) -> f o = Ok o' ->
                  Forall (val_in own k (length h)) (obj_vals o')) ->
    exists own',
      owned own' ((target ← getpath root path; update target f) h).2 /\
      (length h <= length ((target ← getpath root path; update target f) h).2)%nat /\
      (forall l, (l < length h)%nat -> own' l = own l) /\
      (forall l, (l < length h)%nat -> own l <> k ->
                 ((target ← getpath root path; update target f) h).2 !! l = h !! l)).
  { intros path f Hf.
    destruct (target_update_owned own k root path f h Ho Hroot Hf) as (H1 & H2 & H3).
    exists own. split; [exact H1|]. split; [lia|]. split; [reflexivity|].
    intros l _ Hl. exact (H3 l Hl). }
  assert (Hmade : forall v path (f : val -> obj -> outcome obj),
    (forall own1 n v' o o', val_in own1 k n v' ->
        Forall (val_in own1 k n) (obj_vals o) -> f v' o = Ok o' ->
        Forall (val_in own1 k n) (obj_vals o')) ->
    exists own',
      owned own' ((v' ← make v; target ← getpath root path; update target (f v')) h).2 /\
      (length h <= length ((v' ← make v; target ← getpath root path;
                            update target (f v')) h).2)%nat /\
      (forall l, (l < length h)%nat -> own' l = own l) /\
      (forall l, (l < length h)%nat -> own l <> k ->
         ((v' ← make v; target ← getpath root path; update target (f v')) h).2 !! l
         = h !! l)).
  { intros v path f Hf. rewrite bind_run.
    destruct (make_owned own k v h Ho)
      as (own1 & v' & h1 & -> & Ho1 & Hv' & Hlen & Hown & Hsame).
    pose proof (val_in_grow own own1 k _ _ root Hlen Hown Hroot) as Hroot1.
    destruct (target_update_owned own1 k root path (f v') h1 Ho1 Hroot1) as (H1 & H2 & H3).
    { intros o o'. apply Hf. exact Hv'. }
    exists own1. split; [exact H1|]. split; [lia|]. split; [exact Hown|].
    intros l Hl Hne. rewrite H3 by (rewrite (Hown _ Hl); exact Hne).
    exact (Hsame _ Hl). }
  destruct m as [path name v|path name v|path name|path flag|path i s|path s];
    unfold mutate.
  - destruct (Hmade v path (fun v' o =>
        match o with
        | CfgNode immutable fields =>
            if immutable then Raise AttributeError
            else Ok (CfgNode immutable (dict_set name v' fields))
        | PyList _ => Raise AttributeError
        end)) as (own' & H1 & H2 & H3 & H4).
    { intros own1 n v' [[|] fields|items] o' Hv' Hvals; try discriminate.
      intros [= <-]. simpl in *. apply dict_set_Forall; assumption. }
    exists own'.
    assert (Hst : ((v' ← make v; target ← getpath root path; setattr target name v') h).2
                  = ((v' ← make v; target ← getpath root path;
                      update target (fun o =>
                        match o with
                        | CfgNode immutable fields =>
                            if immutable then Raise AttributeError
                            else Ok (CfgNode immutable (dict_set name v' fields))
                        | PyList _ => Raise AttributeError
                        end)) h).2).
    { rewrite !bind_run. destruct (make v h) as [[v'|e] h1]; [|reflexivity].
      rewrite !bind_run. destruct (getpath root path h1) as [[target|e] h2]; [|reflexivity].
      apply setattr_update. }
    rewrite Hst. auto.
  - apply (Hmade v path (fun v' o =>
        match o with
        | CfgNode immutable fields => Ok (CfgNode immutable (dict_set name v' fields))
        | PyList _ => Raise TypeError
        end)).
    intros own1 n v' [immutable fields|items] o' Hv' Hvals; [|discriminate].
    intros [= <-]. simpl in *. apply dict_set_Forall; assumption.
  - apply Hplain. intros [immutable fields|items] o' Hvals; [|discriminate].
    intros [= <-]. simpl in *. apply dict_del_Forall; assumption.
  - apply Hplain. intros [immutable fields|items] o' Hvals; [|discriminate].
    intros [= <-]. exact Hvals.
  - apply Hplain. intros [immutable fields|items] o' Hvals; [discriminate|].
    destruct (i <? length items)%nat; [|discriminate]. intros [= <-]. simpl in *.
    apply Forall_insert; [exact Hvals | exact I].
  - apply Hplain. intros [immutable fields|items] o' Hvals; [discriminate|].
    intros [= <-]. simpl in *.
    apply Forall_app. split; [exact Hvals | constructor; [exact I | constructor]].
Qed.

(** Storing in a config of owner [k] an object reached from a config of
    the same owner keeps the owners apart. *)
Lemma share_owned own k a path name b source h :
  owned own h -> val_in own k (length h) a -> val_in own k (length h) b ->
  owned own ((v ← getpath b source; target ← getpath a path; setattr target name v) h).2 /\
  length ((v ← getpath b source; target ← getpath a path; setattr target name v) h).2
  = length h /\
  forall l, own l <> k ->
    ((v ← getpath b source; target ← getpath a path; setattr target name v) h).2 !! l
    = h !! l.
Proof.
  intros Ho Ha Hb. rewrite !bind_run. unfold getpath.
  destruct (resolve h b source) as [v|] eqn:Hv; [|auto].
  pose proof (resolve_owned _ _ _ _ _ _ Ho Hb Hv) as Hin.
  rewrite !bind_run.
  destruct (resolve h a path) as [target|] eqn:Ht; [|auto].
  rewrite !setattr_update. apply update_owned; [exact Ho| |].
  - exact (resolve_owned _ _ _ _ _ _ Ho Ha Ht).
  - intros [[|] fields|items] o' Hvals; try discriminate.
    intros [= <-]. simpl in *. apply dict_set_Forall; assumption.
Qed.

Lemma get_cfg_defaults_adds h :
  kept h ->
  exists l h',
    get_cfg_defaults h = (Ok (Ref l), h') /\ adds h h' [Ref l].
Proof.
  intros Hk. destruct (get_cfg_defaults_kept h Hk) as (l & h' & Hget & _).
  exists l, h'. split; [exact Hget|].
  exact (deepcopy_adds _ _ _ _ _ Hget).
Qed.

Lemma module_owned : owned (fun _ => 0%nat) module_heap.
Proof.
  intros l o Hlook. change (length module_heap) with 6%nat.
  do 6 (destruct l as [|l];
        [injection Hlook as <-; simpl; repeat constructor|]).
  discriminate.
Qed.

Lemma client_snoc steps s : client (steps ++ [s]) = client_step (client steps) s.
Proof. unfold client. rewrite fold_left_app. reflexivity. Qed.

(** The configs of a client that has kept them apart share no object. *)
Lemma client_separate steps :
  Forall apart steps ->
  exists own, separate own (client steps).1 (client steps).2.
Proof.
  induction steps as [|s steps IH] using rev_ind; intros Hapart.
  - exists (fun _ => 0%nat). split; [exact module_owned|].
    intros j c Hj. discriminate.
  - apply Forall_app in Hapart. destruct Hapart as [Hsteps Hs].
    apply Forall_cons in Hs. destruct Hs as [Hs _].
    destruct (IH Hsteps) as (own & Ho & Hheld). rewrite client_snoc.
    destruct (client_kept steps) as [Hk _].
    destruct (client steps) as [held h]. simpl in *.
    destruct s as [|i m|i path name j source].
    + destruct (get_cfg_defaults_adds h Hk) as (l & h' & -> & new & -> & Hl & Hnew).
      simpl.
      assert (Hlen : (length h <= length (h ++ new))%nat) by (rewrite length_app; lia).
      set (own' := fun r => if decide (r < length h)%nat then own r else S (length held)).
      assert (Hold : forall r, (r < length h)%nat -> own' r = own r).
      { intros r Hr. unfold own'. destruct (decide (r < length h)%nat); [reflexivity | lia]. }
      assert (Hfresh : forall k v, val_new (length h) (length (h ++ new)) v ->
                                   k = S (length held) ->
                                   val_in own' k (length (h ++ new)) v).
      { intros k [s|r] Hv ->; simpl in *; [exact I|]. split; [lia|].
        unfold own'. destruct (decide (r < length h)%nat); [lia | reflexivity]. }
      exists own'. split.
      * intros r o Hlook. destruct (decide (r < length h)%nat) as [Hr|Hr].
        -- rewrite lookup_app_l in Hlook by exact Hr. rewrite (Hold _ Hr).
           eapply Forall_impl; [exact (Ho _ _ Hlook)|].
           intros v. exact (val_in_grow own own' _ _ _ v Hlen Hold).
        -- rewrite lookup_app_r in Hlook by lia.
           rewrite Forall_lookup in Hnew. pose proof (Hnew _ _ Hlook) as Hvals.
           eapply Forall_impl; [exact Hvals|]. intros v Hv. apply Hfresh; [exact Hv|].
           unfold own'. destruct (decide (r < length h)%nat); [lia | reflexivity].
      * intros j c Hj. apply lookup_app_Some in Hj. destruct Hj as [Hj|[Hge Hj]].
        -- exact (val_in_grow own own' _ _ _ c Hlen Hold (Hheld _ _ Hj)).
        -- destruct (j - length held)%nat as [|n] eqn:Hn; [|discriminate].
           injection Hj as <-. apply Forall_cons in Hl. destruct Hl as [Hl _].
           apply Hfresh; [exact Hl | lia].
    + destruct (held !! i) as [ci|] eqn:Hi; simpl; [|exists own; split; assumption].
      destruct (mutate_owned own (S i) ci m h Ho (Hheld _ _ Hi)) as (own' & H1 & H2 & H3 & _).
      exists own'. split; [exact H1|].
      intros j c Hj. exact (val_in_grow own own' _ _ _ c H2 H3 (Hheld _ _ Hj)).
    + simpl in Hs. subst j.
      destruct (held !! i) as [a|] eqn:Hi; simpl; [|exists own; split; assumption].
      destruct (share_owned own (S i) a path name a source h Ho
                  (Hheld _ _ Hi) (Hheld _ _ Hi)) as (H1 & H2 & _).
      exists own. split; [exact H1|].
      intros j c Hj. rewrite H2. exact (Hheld _ _ Hj).
Qed.

(** One step that keeps the configs apart and spares a config leaves it in
    the client's hands and reading as before. *)
Lemma step_spares steps s j c t :
  Forall apart steps -> apart s -> spares j s ->
  (client steps).1 !! j = Some c ->
  config_value (client steps).2 c = Some t ->
  (client (steps ++ [s])).1 !! j = Some c /\
  config_value (client (steps ++ [s])).2 c = Some t.
Proof.
  intros Hsteps Ha Hs Hj Ht. rewrite client_snoc.
  destruct (client_separate steps Hsteps) as (own & Ho & Hheld).
  destruct (client_kept steps) as [Hk _].
  destruct (client steps) as [held h]. simpl in *.
  assert (Hagree : forall h', (length h <= length h')%nat ->
            (forall r : loc, (r < length h)%nat -> own r = S j -> h' !! r = h !! r) ->
            config_value h' c = Some t).
  { intros h' Hlen Hsame. unfold config_value in *.
    rewrite (read_tree_agree own (S j) h h' Ho Hsame); [|exact (Hheld _ _ Hj)].
    pose proof (read_tree_extend _ _ _ _ Ht _ [] Hlen) as H.
    rewrite app_nil_r in H. exact H. }
  destruct s as [|i m|i path name i' source].
  - destruct (get_cfg_defaults_adds h Hk) as (l & h' & -> & new & -> & _). simpl.
    split; [apply lookup_app_l_Some; exact Hj|].
    unfold config_value in *. apply (read_tree_extend _ _ _ _ Ht).
    rewrite length_app. lia.
  - destruct (held !! i) as [ci|] eqn:Hi; simpl; [|split; assumption].
    split; [exact Hj|].
    destruct (mutate_owned own (S i) ci m h Ho (Hheld _ _ Hi)) as (own' & _ & Hlen & _ & Hsame).
    apply Hagree; [exact Hlen|].
    intros r Hr Hown. apply Hsame; [exact Hr|]. rewrite Hown. simpl in Hs. lia.
  - simpl in Ha. subst i'.
    destruct (held !! i) as [a|] eqn:Hi; simpl; [|split; assumption].
    split; [exact Hj|].
    destruct (share_owned own (S i) a path name a source h Ho
                (Hheld _ _ Hi) (Hheld _ _ Hi)) as (_ & Hlen & Hsame).
    apply Hagree; [lia|].
    intros r Hr Hown. apply Hsame. rewrite Hown. simpl in Hs. lia.
Qed.

(** Configs handed out by different calls are independent of each other as
    long as the client keeps them apart, that is, never stores in one of
    them an object it reaches from another: once such a client holds a
    config, whatever it goes on to do with the other configs it holds or
    takes (assigning or deleting keys, storing new lists or objects of the
    same config, changing or growing lists, freezing), nested nodes and
    lists included, that config stays in its hands and reads as it did. *)
Theorem other_configs_unaffected (steps more : list step) (j : nat) (c : val) (t : tree) :
  Forall apart (steps ++ more) ->
  Forall (spares j) more ->
  (client steps).1 !! j = Some c ->
  config_value (client steps).2 c = Some t ->
  (client (steps ++ more)).1 !! j = Some c /\
  config_value (client (steps ++ more)).2 c = Some t.
Proof.
  intros Hapart Hmore Hj Ht. induction more as [|s more IH] using rev_ind.
  - rewrite app_nil_r. split; assumption.
  - rewrite app_assoc in Hapart.
    apply Forall_app in Hapart. destruct Hapart as [Hbefore Hs'].
    apply Forall_cons in Hs'. destruct Hs' as [Hs' _].
    apply Forall_app in Hmore. destruct Hmore as [Hmore Hs].
    apply Forall_cons in Hs. destruct Hs as [Hs _].
    destruct (IH Hbefore Hmore) as [Hj' Ht']. rewrite app_assoc.
    exact (step_spares _ _ _ _ _ Hbefore Hs' Hs Hj' Ht').
Qed.

(** The client can end the independence itself: after [a.model = b.model],
    what it changes through [a.model] shows in [b], while [_C] still reads
    as the defaults. *)
Example sharing_links_configs :
  let st := client [Get; Get;
                    Share 0 [] "model" 1 ["model"];
                    Mutate 0 (SetAttr ["model"] "n_flows" (LScalar (SInt 1)))] in
  exists a b,
    st.1 = [a; b] /\
    resolve st.2 a ["model"] = resolve st.2 b ["model"] /\
    resolve st.2 b ["model"; "n_flows"] = Some (Scalar (SInt 1)) /\
    config_value st.2 _C = Some default_tree.
Proof. eexists _, _. repeat split; vm_compute; reflexivity. Qed.

End Defaults.

(** ** A small run

    Six numbered examples, the first two held out, batches of two; a network
    and a loss that are as simple as can be.  The statements above are
    instantiated here, and the readings of the specification that the code
    does not follow are evaluated. *)

Module Demo.

Import Runner.

(** A tensor holds one entry per example of the batch: its number.  This
    network writes none of its parameters when it runs. *)
Definition network (p : Z) (training : bool) (texts mels text_lens output_lens : list nat)
  : Outputs (list nat) * Z :=
  (mkOutputs mels mels text_lens texts, p).

(** The same network with a normalisation layer: in training mode a forward
    pass moves the running statistic the layer keeps among its
    parameters. *)
Definition network_with_statistics (p : Z) (training : bool)
    (texts mels text_lens output_lens : list nat) : Outputs (list nat) * Z :=
  (mkOutputs mels mels text_lens texts, if training then p + 1 else p).

Definition criterion (mel_outputs mel_outputs_postnet stop_logits mel_targets stop_tokens : list nat)
  : list (string * Z) :=
  [("loss", 3); ("mel_loss", 1); ("post_mel_loss", 1); ("stop_loss", 1)].

Definition loss_gradient (p : Z) (training : bool) (batch : Batch (list nat)) : Z := 1.

Definition adam_step (o : nat) (p : Z) (g : list Z) : nat * Z := (S o, p - 1).

Definition mean (xs : list Z) : Z :=
  match xs with
  | [] => 0
  | _ => fold_right Z.add 0 xs / Z.of_nat (length xs)
  end.

(** [LJSpeechCollector]: the examples of a batch, side by side. *)
Definition batch_fn (examples : list nat) : Batch (list nat) :=
  mkBatch examples examples examples examples examples.

(** Samplers that happen to draw the order of the view. *)
Definition in_order (epoch : Z) (v : Loader.view) : list nat := v.

Definition setup (parallel : bool) (len : nat) (valid_size batch_size : Z)
  : outcome Loader.Loaders :=
  Loader.setup_dataloader in_order in_order parallel len valid_size batch_size.

Definition loaders : Loader.Loaders :=
  match setup false 6 2 2 with
  | Ok L => L
  | Raise _ => Loader.mkLoaders (fun _ => []) []
  end.

(** The clock reads 100 on entry, 105 once the batch is there, 107 after the
    update. *)
Definition wall_clock (n : nat) : Z :=
  match n with
  | O => 100
  | S O => 105
  | _ => 107
  end.

(** The experiment after [setup], on the worker of the given rank. *)
Definition experiment (rank : nat) : @Experiment (list nat) Z Z Z nat :=
  mkExperiment rank false wall_clock 0 0 0
    (fun epoch => map batch_fn (Loader.train_batches loaders epoch))
    (map batch_fn (Loader.valid_batches loaders))
    [] 0 false 0%nat [] (fun _ g => g) 0%nat true [] [] [].

(** The worker of the given rank in a parallel run in which the other
    workers' gradients bring the average to twice this worker's own. *)
Definition parallel_experiment (rank : nat) : @Experiment (list nat) Z Z Z nat :=
  mkExperiment rank true wall_clock 0 0 0
    (fun epoch => map batch_fn (Loader.train_batches loaders epoch))
    (map batch_fn (Loader.valid_batches loaders))
    [] 0 false 0%nat [] (fun _ g => 2 * g) 0%nat true [] [] [].

Definition train_batch : M (@Experiment (list nat) Z Z Z nat) unit :=
  Runner.train_batch network criterion loss_gradient adam_step.
Definition valid : M (@Experiment (list nat) Z Z Z nat) unit :=
  Runner.valid network criterion mean.
Definition worker (calls : list call) : M (@Experiment (list nat) Z Z Z nat) unit :=
  Runner.worker network criterion loss_gradient adam_step mean calls.

Example setup_splits_six :
  setup false 6 2 2 = Ok loaders /\
  Loader.valid_batches loaders = [[0; 1]]%nat /\
  Loader.train_batches loaders 1 = [[2; 3]; [4; 5]]%nat.
Proof. repeat split. Qed.

(** The examples of the specification: 64 held-out examples in batches of 8
    are 8 batches of 8; 70 are 8 batches of 8 and one of 6. *)
Example valid_64_by_8 :
  map length (Loader.batch_sampler 8 false (seq 0 64) []) = repeat 8%nat 8.
Proof. reflexivity. Qed.

Example valid_70_by_8 :
  map length (Loader.batch_sampler 8 false (seq 0 70) []) = repeat 8%nat 8 ++ [6%nat].
Proof. reflexivity. Qed.

(** A training view of 70 in batches of 8 gives 8 batches: 6 are dropped. *)
Example train_70_by_8 :
  map length (Loader.batch_sampler 8 true (seq 0 70) []) = repeat 8%nat 8.
Proof. reflexivity. Qed.

Example train_batch_on_rank_zero :
  (train_batch (experiment 0)).1 = Ok tt /\
  logger (train_batch (experiment 0)).2
  = [TrainMsg 0 0 5 7 [("loss", 3); ("mel_loss", 1); ("post_mel_loss", 1); ("stop_loss", 1)]] /\
  visualizer (train_batch (experiment 0)).2
  = [AddScalar "train_loss/loss" 3 0; AddScalar "train_loss/mel_loss" 1 0;
     AddScalar "train_loss/post_mel_loss" 1 0; AddScalar "train_loss/stop_loss" 1 0].
Proof. split; [|split]; vm_compute; reflexivity. Qed.

Example valid_on_rank_zero_emits :
  visualizer (valid (experiment 0)).2
  = [AddAttentionPlots "valid_sentence_0_alignments" [0; 1]%nat 0;
     AddScalar "valid/loss" 3 0; AddScalar "valid/mel_loss" 1 0;
     AddScalar "valid/post_mel_loss" 1 0; AddScalar "valid/stop_loss" 1 0].
Proof. vm_compute. reflexivity. Qed.

(** Witness of C1: the worker of rank 1. *)
Lemma only_rank_zero_observes_witness :
  rank (experiment 1) <> 0%nat /\
  (visualizer (train_batch (experiment 1)).2 = visualizer (experiment 1) /\
   valid (experiment 1) = (Ok tt, experiment 1) /\
   visualizer (worker [CallTrainBatch; Advance 1; CallValid; CallTrainBatch]
                 (experiment 1)).2
   = visualizer (experiment 1)).
Proof.
  split; [simpl; lia|].
  apply (only_rank_zero_observes network criterion loss_gradient adam_step mean).
  simpl; lia.
Defined.

(** Counterexample to C2 as stated: a training step that completes, started
    with the counter at 0, leaves the counter at 0, not at 1. *)
Lemma train_batch_does_not_advance_iteration :
  (train_batch (experiment 0)).1 = Ok tt /\
  iteration (experiment 0) = 0 /\
  iteration (train_batch (experiment 0)).2 = 0 /\
  iteration (train_batch (experiment 0)).2 <> iteration (experiment 0) + 1.
Proof.
  split; [vm_compute; reflexivity|]. split; [reflexivity|].
  split; [vm_compute; reflexivity|]. vm_compute. discriminate.
Qed.

(** The experiment of rank 0 after one training step of the network with a
    normalisation layer: the step has left the model in training mode. *)
Definition trained : @Experiment (list nat) Z Z Z nat :=
  (Runner.train_batch network_with_statistics criterion loss_gradient adam_step
     (experiment 0)).2.

(** Counterexample to C3 as stated: after a training step, a validation
    pass over one batch runs the forward pass in training mode, and the
    running statistic among the parameters is 1 after the pass where it was
    0 before; the optimizer state is what it was. *)
Lemma valid_moves_running_statistics :
  rank trained = 0%nat /\
  training trained = true /\
  length (valid_loader trained) = 1%nat /\
  (Runner.valid network_with_statistics criterion mean trained).1 = Ok tt /\
  model trained = 0 /\
  model (Runner.valid network_with_statistics criterion mean trained).2 = 1 /\
  model (Runner.valid network_with_statistics criterion mean trained).2 <> model trained /\
  optimizer (Runner.valid network_with_statistics criterion mean trained).2
  = optimizer trained.
Proof.
  split; [vm_compute; reflexivity|]. split; [vm_compute; reflexivity|].
  split; [vm_compute; reflexivity|]. split; [vm_compute; reflexivity|].
  split; [vm_compute; reflexivity|]. split; [vm_compute; reflexivity|].
  split; [vm_compute; discriminate | vm_compute; reflexivity].
Qed.

(** Instance of C3 (amended): with a network that writes no parameter, the
    parameters after a validation pass are those from before it. *)
Lemma valid_leaves_model_to_forward_witness :
  (forall p b, In b (valid_loader (experiment 0)) ->
     (forward network p (training (experiment 0)) b).2 = p) /\
  model (valid (experiment 0)).2 = model (experiment 0) /\
  optimizer (valid (experiment 0)).2 = optimizer (experiment 0).
Proof.
  assert (Hfix : forall p b, In b (valid_loader (experiment 0)) ->
            (forward network p (training (experiment 0)) b).2 = p)
    by (intros p b _; reflexivity).
  split; [exact Hfix|].
  destruct (valid_leaves_model_to_forward network criterion mean (experiment 0))
    as (_ & Hopt & _ & _ & _ & _ & _ & Hmodel).
  split; [exact (Hmodel Hfix) | exact Hopt].
Defined.

(** Counterexample to C6 as stated: the batch took 5 ticks to arrive and the
    computation phases took 2, and the second timing logged is 7, not 2. *)
Lemma second_timing_counts_the_fetch :
  (train_batch (experiment 0)).1 = Ok tt /\
  t_batch (experiment 0) - t_start (experiment 0) = 5 /\
  t_done (experiment 0) - t_batch (experiment 0) = 2 /\
  exists msg,
    last (logger (train_batch (experiment 0)).2) = Some msg /\
    logged_timings msg = Some (5, 7) /\
    7 <> t_done (experiment 0) - t_batch (experiment 0).
Proof.
  split; [vm_compute; reflexivity|]. split; [vm_compute; reflexivity|].
  split; [vm_compute; reflexivity|].
  eexists. split; [vm_compute; reflexivity|]. split; [reflexivity|].
  vm_compute. discriminate.
Qed.

(** Witness of C6. *)
Lemma iteration_time_includes_data_loading_witness :
  train_batch (experiment 0) = (Ok tt, (train_batch (experiment 0)).2) /\
  exists msg,
    logger (train_batch (experiment 0)).2 = logger (experiment 0) ++ [msg] /\
    logged_timings msg
    = Some (t_batch (experiment 0) - t_start (experiment 0),
            (t_batch (experiment 0) - t_start (experiment 0))
            + (t_done (experiment 0) - t_batch (experiment 0))).
Proof.
  split; [vm_compute; reflexivity|].
  apply (iteration_time_includes_data_loading network criterion loss_gradient adam_step
           (experiment 0) (train_batch (experiment 0)).2).
  vm_compute; reflexivity.
Defined.

(** Counterexample to C7 as stated: the validation split has two examples,
    collated into one batch, and the pass makes one attention-plot call,
    tagged with the index of the batch, not two. *)
Lemma two_examples_one_alignment_plot :
  Loader.valid_batches loaders = [[0; 1]]%nat /\
  length (concat (Loader.valid_batches loaders)) = 2%nat /\
  (valid (experiment 0)).1 = Ok tt /\
  filter (fun c => is_attention_plot c = true) (visualizer (valid (experiment 0)).2)
  = [AddAttentionPlots "valid_sentence_0_alignments" [0; 1]%nat 0].
Proof.
  split; [vm_compute; reflexivity|]. split; [vm_compute; reflexivity|].
  split; vm_compute; reflexivity.
Qed.

(** Witness of C7. *)
Lemma one_alignment_plot_per_batch_witness :
  rank (experiment 0) = 0%nat /\
  exists scalars,
    (valid (experiment 0)).1 = Ok tt /\
    visualizer (valid (experiment 0)).2
    = visualizer (experiment 0)
      ++ map (alignment_plot network (experiment 0))
           (enumerate (valid_loader (experiment 0)))
      ++ scalars /\
    length (map (alignment_plot network (experiment 0))
              (enumerate (valid_loader (experiment 0))))
    = length (valid_loader (experiment 0)) /\
    NoDup (map vis_tag
             (map (alignment_plot network (experiment 0))
                (enumerate (valid_loader (experiment 0))))) /\
    Forall (fun c => is_attention_plot c = false) scalars.
Proof.
  split; [reflexivity|].
  apply (one_alignment_plot_per_batch network criterion mean (experiment 0)).
  reflexivity.
Defined.

(** Witness of C4: 100 examples, 70 of them held out, batches of 8. *)
Lemma train_drops_last_valid_keeps_all_witness :
  exists L,
    setup false 100 70 8 = Ok L /\
    (forall epoch, Forall (fun b => length b = 8%nat) (Loader.train_batches L epoch)) /\
    concat (Loader.valid_batches L) = seq 0 70 /\
    length (concat (Loader.valid_batches L)) = 70%nat.
Proof.
  eexists. split; [vm_compute; reflexivity|].
  destruct (Loader.train_drops_last_valid_keeps_all in_order in_order false 100 70 8 _
              eq_refl) as (Htrain & Hcat & Hlen & _).
  split; [|split; [exact Hcat | exact Hlen]].
  intros epoch. exact (proj1 (Htrain epoch)).
Defined.

(** Witness of C10: six examples, two of them held out. *)
Lemma setup_partitions_dataset_witness :
  setup false 6 2 2 = Ok loaders /\
  exists valid_set train_set,
    Loader.split 6 2 = Ok (valid_set, train_set) /\
    valid_set ++ train_set = seq 0 6 /\
    NoDup (valid_set ++ train_set) /\
    Z.of_nat (length valid_set) = 2 /\
    (length train_set = 6 - length valid_set)%nat /\
    (forall i, In i (concat (Loader.valid_batches loaders)) <-> In i valid_set) /\
    (forall epoch i, In i (concat (Loader.train_batches loaders epoch)) -> In i train_set) /\
    (forall epoch i,
       In i (concat (Loader.train_batches loaders epoch)) ->
       ~ In i (concat (Loader.valid_batches loaders))).
Proof.
  split; [vm_compute; reflexivity|].
  apply (Loader.setup_partitions_dataset in_order in_order
           (fun _ _ _ H => H) (fun _ _ _ H => H) false 6 2 2 loaders).
  vm_compute; reflexivity.
Defined.

(** A run of the entry point: defaults of two keys, a file that sets the
    batch size to 16, a command line that sets it to 32. *)
Definition defaults : ConfigTree.Config :=
  ConfigTree.mkConfig false
    (<["data.batch_size" := ConfigTree.VInt 8]>
       (<["training.lr" := ConfigTree.VFloat (1 # 1000)]> ∅))
    [].

Definition files (path : string) : option (list (string * ConfigTree.value)) :=
  if String.eqb path "exp.yaml" then Some [("data.batch_size", ConfigTree.VInt 16)]
  else None.

Definition decode (text : string) : ConfigTree.value :=
  if String.eqb text "32" then ConfigTree.VInt 32 else ConfigTree.VStr text.

Definition args : Launch.Args :=
  Launch.mkArgs (Some "exp.yaml") "ljspeech" "cpu" 1 ["data.batch_size"; "32"].

Definition started_config : ConfigTree.Config :=
  (ConfigTree.entry files decode defaults args).2.

(** Witness of C8. *)
Lemma entry_merges_then_freezes_witness :
  ConfigTree.entry files decode defaults args
  = (Ok (Launch.InProcess started_config args), started_config) /\
  ConfigTree.calls started_config
  = [ConfigTree.CallMergeFromFile "exp.yaml";
     ConfigTree.CallMergeFromList ["data.batch_size"; "32"];
     ConfigTree.CallFreeze] /\
  ConfigTree.frozen started_config = true /\
  ConfigTree.entries started_config !! "data.batch_size" = Some (ConfigTree.VInt 32) /\
  ConfigTree.entries started_config !! "training.lr"
  = Some (ConfigTree.VFloat (1 # 1000)) /\
  ConfigTree.set_key ("data.batch_size", ConfigTree.VInt 64) started_config
  = (Raise ConfigError, started_config).
Proof.
  assert (Hrun : ConfigTree.entry files decode defaults args
                 = (Ok (Launch.InProcess started_config args), started_config))
    by (vm_compute; reflexivity).
  split; [exact Hrun|].
  destruct (ConfigTree.entry_merges_then_freezes files decode defaults args _ _ Hrun)
    as (Hcalls & Hfrozen & _ & Hlookup & Hset & _).
  split; [exact Hcalls|]. split; [exact Hfrozen|].
  split; [rewrite Hlookup; reflexivity|].
  split; [rewrite Hlookup; reflexivity|].
  apply Hset.
Defined.

(** *** Instances of the further statements *)

(** A loss that looks at everything it is given. *)
Definition criterion_sizes
    (mel_outputs mel_outputs_postnet stop_logits mel_targets stop_tokens : list nat)
  : list (string * Z) :=
  [("loss", Z.of_nat (length (mel_outputs ++ mel_outputs_postnet ++ stop_logits
                                ++ mel_targets ++ stop_tokens)))].

(** A loss dictionary without the entry ["loss"]. *)
Definition criterion_unnamed
    (mel_outputs mel_outputs_postnet stop_logits mel_targets stop_tokens : list nat)
  : list (string * Z) :=
  [("mel_loss", 1)].

Lemma compute_losses_reads_targets_only_witness :
  texts (batch_fn [0; 1]%nat) <> texts (mkBatch [7]%nat [0; 1]%nat [8]%nat [9]%nat [0; 1]%nat) /\
  compute_losses criterion_sizes (batch_fn [0; 1]%nat)
    (mkOutputs [1]%nat [2]%nat [3]%nat [4]%nat)
  = compute_losses criterion_sizes (mkBatch [7]%nat [0; 1]%nat [8]%nat [9]%nat [0; 1]%nat)
      (mkOutputs [1]%nat [2]%nat [3]%nat [5; 6]%nat).
Proof.
  split; [discriminate|].
  apply (compute_losses_reads_targets_only criterion_sizes); reflexivity.
Defined.

Lemma train_batch_without_loss_entry_witness :
  next_batch (experiment 0) = Some (batch_fn [2; 3]%nat) /\
  (Runner.train_batch network_with_statistics criterion_unnamed loss_gradient adam_step
     (experiment 0)).1
  = Raise (KeyError "loss") /\
  model (Runner.train_batch network_with_statistics criterion_unnamed loss_gradient
           adam_step (experiment 0)).2
  = 1 /\
  optimizer (Runner.train_batch network_with_statistics criterion_unnamed loss_gradient
               adam_step (experiment 0)).2
  = optimizer (experiment 0).
Proof.
  split; [vm_compute; reflexivity|].
  destruct (train_batch_without_loss_entry network_with_statistics criterion_unnamed
              loss_gradient adam_step (experiment 0) (batch_fn [2; 3]%nat))
    as (Hraise & Hmodel & Hopt & _); [vm_compute; reflexivity | vm_compute; reflexivity |].
  split; [exact Hraise|]. split; [exact (eq_trans Hmodel eq_refl) | exact Hopt].
Defined.

Lemma train_batch_updates_once_witness :
  next_batch (parallel_experiment 1) = Some (batch_fn [2; 3]%nat) /\
  (train_batch (parallel_experiment 1)).1 = Ok tt /\
  grad (train_batch (parallel_experiment 1)).2 = [2] /\
  syncs (train_batch (parallel_experiment 1)).2 = 1%nat.
Proof.
  split; [vm_compute; reflexivity|].
  destruct (train_batch_updates_once network criterion loss_gradient adam_step
              (parallel_experiment 1) (batch_fn [2; 3]%nat) 3)
    as (Hok & _ & Hgrad & Hsyncs & _); [vm_compute; reflexivity | vm_compute; reflexivity |].
  split; [exact Hok|].
  split; [exact (eq_trans Hgrad eq_refl) | exact (eq_trans Hsyncs eq_refl)].
Defined.

Lemma train_batch_reports_witness :
  next_batch (experiment 1) = Some (batch_fn [2; 3]%nat) /\
  logger (train_batch (experiment 1)).2
  = logger (experiment 1)
    ++ [TrainMsg (rank (experiment 1)) (iteration (experiment 1))
          (t_batch (experiment 1) - t_start (experiment 1))
          (t_done (experiment 1) - t_start (experiment 1))
          (step_losses network criterion (experiment 1) (batch_fn [2; 3]%nat))].
Proof.
  split; [vm_compute; reflexivity|].
  destruct (train_batch_reports network criterion loss_gradient adam_step
              (experiment 1) (batch_fn [2; 3]%nat) 3)
    as (Hlog & _); [vm_compute; reflexivity | vm_compute; reflexivity |].
  exact Hlog.
Defined.

Lemma valid_reports_the_means_witness :
  rank (experiment 0) = 0%nat /\
  (valid (experiment 0)).1 = Ok tt /\
  logger (valid (experiment 0)).2
  = logger (experiment 0)
    ++ [ValidMsg (iteration (experiment 0))
          (valid_means network criterion mean (experiment 0))].
Proof.
  split; [reflexivity|].
  assert (Hok : (valid (experiment 0)).1 = Ok tt) by (vm_compute; reflexivity).
  split; [exact Hok|].
  exact (proj1 (valid_reports_the_means network criterion mean (experiment 0)
                  eq_refl Hok)).
Defined.

(** An experiment whose validation source has no batch. *)
Definition without_validation : @Experiment (list nat) Z Z Z nat :=
  mkExperiment 0 false wall_clock 0 0 0
    (fun epoch => map batch_fn (Loader.train_batches loaders epoch))
    [] [] 0 false 0%nat [] (fun _ g => g) 0%nat true [] [] [].

Lemma valid_on_empty_loader_witness :
  valid_loader without_validation = [] /\
  logger (valid without_validation).2
  = logger without_validation ++ [ValidMsg (iteration without_validation) []] /\
  visualizer (valid without_validation).2 = visualizer without_validation /\
  forward_log (valid without_validation).2 = forward_log without_validation.
Proof.
  split; [reflexivity|].
  apply (valid_on_empty_loader network criterion mean without_validation); reflexivity.
Defined.

Lemma batch_counts_witness :
  exists L,
    setup false 100 70 8 = Ok L /\
    length (Loader.valid_batches L) = 9%nat /\
    length (Loader.train_batches L 1) = 3%nat.
Proof.
  eexists. split; [vm_compute; reflexivity|].
  destruct (Loader.batch_counts in_order in_order false 100 70 8 _ eq_refl)
    as [Hvalid Htrain].
  split; [exact (eq_trans Hvalid eq_refl) | exact (eq_trans (Htrain 1) eq_refl)].
Defined.

(** A sampler that visits the view backwards. *)
Definition backwards (epoch : Z) (v : Loader.view) : list nat := rev v.

Lemma valid_loader_never_sharded_witness :
  setup false 6 2 2 = Ok loaders /\
  exists L',
    Loader.setup_dataloader backwards backwards true 6 2 2 = Ok L' /\
    Loader.valid_batches L' = Loader.valid_batches loaders.
Proof.
  split; [vm_compute; reflexivity|].
  apply (Loader.valid_loader_never_sharded in_order in_order backwards backwards
           false 6 2 2 loaders).
  vm_compute; reflexivity.
Defined.

(** With every example held out, the setup succeeds in parallel mode and is
    refused in one process. *)
Example setup_without_training_examples :
  (exists L, setup true 6 6 2 = Ok L /\ Loader.valid_batches L = [[0; 1]; [2; 3]; [4; 5]]%nat) /\
  setup false 6 6 2 = Raise ValueError.
Proof. split; [eexists; split|]; vm_compute; reflexivity. Qed.

(** A command line that overrides a key the defaults do not have. *)
Definition bad_args : Launch.Args :=
  Launch.mkArgs None "ljspeech" "cpu" 1 ["data.no_such_key"; "32"].

Lemma entry_failure_stops_before_freeze_witness :
  (ConfigTree.entry files decode defaults bad_args).1 = Raise ConfigError /\
  ConfigTree.frozen (ConfigTree.entry files decode defaults bad_args).2
  = ConfigTree.frozen defaults /\
  exists done,
    ConfigTree.calls (ConfigTree.entry files decode defaults bad_args).2
    = ConfigTree.calls defaults ++ done /\
    ~ In ConfigTree.CallFreeze done.
Proof.
  split; [vm_compute; reflexivity|].
  apply (ConfigTree.entry_failure_stops_before_freeze files decode defaults bad_args
           ConfigError).
  vm_compute; reflexivity.
Defined.

(** A command line with an empty config path and no override. *)
Definition plain_args : Launch.Args := Launch.mkArgs (Some "") "ljspeech" "gpu" 2 [].

Lemma entry_without_overrides_witness :
  Launch.config plain_args = Some "" /\
  exists cfg,
    ConfigTree.entry files decode defaults plain_args
    = (Ok (Launch.main cfg plain_args), cfg) /\
    ConfigTree.frozen cfg = true /\
    ConfigTree.entries cfg = ConfigTree.entries defaults /\
    ConfigTree.calls cfg = ConfigTree.calls defaults ++ [ConfigTree.CallFreeze].
Proof.
  split; [reflexivity|].
  apply (ConfigTree.entry_without_overrides files decode defaults plain_args);
    [right; reflexivity | reflexivity].
Defined.

(** A client that takes two configs, then changes and freezes the first,
    stores one of its own lists under a second name and takes a third: the
    second still reads as the defaults. *)
Definition two_configs : list Defaults.step := [Defaults.Get; Defaults.Get].

Definition changes_elsewhere : list Defaults.step :=
  [Defaults.Mutate 0 (Defaults.SetAttr ["data"] "batch_size"
                        (Defaults.LList [Defaults.SInt 16]));
   Defaults.Mutate 0 (Defaults.Append ["model"; "upsample_factors"] (Defaults.SInt 4));
   Defaults.Share 0 ["data"] "factors" 0 ["model"; "upsample_factors"];
   Defaults.Get;
   Defaults.Mutate 2 (Defaults.DelKey [] "training");
   Defaults.Mutate 0 (Defaults.SetImmutable [] true)].

Lemma other_configs_unaffected_witness :
  (Defaults.client two_configs).1 !! 1%nat = Some (Defaults.Ref 17%nat) /\
  Defaults.config_value (Defaults.client (two_configs ++ changes_elsewhere)).2
    (Defaults.Ref 17%nat)
  = Some Defaults.default_tree /\
  Defaults.config_value (Defaults.client (two_configs ++ changes_elsewhere)).2
    (Defaults.Ref 11%nat)
  <> Some Defaults.default_tree.
Proof.
  split; [vm_compute; reflexivity|]. split.
  - apply (Defaults.other_configs_unaffected two_configs changes_elsewhere 1
             (Defaults.Ref 17%nat) Defaults.default_tree).
    + repeat constructor.
    + repeat constructor; simpl; lia.
    + vm_compute; reflexivity.
    + vm_compute; reflexivity.
  - vm_compute. discriminate.
Defined.

End Demo.
